(** * useGeolocation: the reading gate pipeline, the staleness watchdog and
      the permission/subscription controller of [src/hooks/useGeolocation.ts]

    The hook is embedded shallowly.  A JavaScript [number] is an IEEE 754
    binary64 value, so coordinates are primitive floats and the comparisons
    of the source ([>], [>=], [<]) are the IEEE ones (false on NaN).  The
    hook's React state, its five refs, the [cancelled] flag of its effect and
    the part of the browser it talks to (timers, geolocation watches, the
    permission query and its change listener, one-shot position requests)
    form one record, [World]; every callback of the source is a function
    on it, and the browser delivering a callback is a step of [step].

    One mount of the hook is modelled: the effect runs once, and its cleanup
    at most once matters.  A [setState] takes effect when it is called,
    whenever that is. *)

From Stdlib Require Import Floats ZArith List Bool String Lia.
Import ListNotations.

Set Warnings "-inexact-float".
Local Open Scope float_scope.

(** ** Types *)

Inductive PermissionState := prompt | granted | denied | unsupported.

Record GeoPosition := mkGeoPosition {
  latitude : float;
  longitude : float;
  accuracy : float
}.

(** The fields of the DOM's [GeolocationCoordinates] that the hook reads;
    [speed] is [null] on devices that do not report it. *)
Record GeolocationCoordinates := mkCoords {
  coords_latitude : float;
  coords_longitude : float;
  coords_accuracy : float;
  coords_speed : option float
}.

(** [GeolocationState] without [recalibrate]: what [useState] holds. *)
Record GeolocationState := mkState {
  state_latitude : option float;
  state_longitude : option float;
  state_accuracy : option float;
  error : option string;
  loading : bool;
  permissionState : PermissionState;
  stale : bool
}.

(** [GeolocationPositionError]: its [code] and [message]. *)
Inductive ErrorCode := PERMISSION_DENIED | POSITION_UNAVAILABLE | TIMEOUT.

Record GeolocationPositionError := mkError {
  code : ErrorCode;
  message : string
}.

(** [PermissionStatus.state] of the Permissions API. *)
Inductive PermissionStatusState := status_granted | status_denied | status_prompt.

(** [result.state as PermissionState] *)
Definition asPermissionState (s : PermissionStatusState) : PermissionState :=
  match s with
  | status_granted => granted
  | status_denied => denied
  | status_prompt => prompt
  end.

(** ** Constants *)

Definition EMA_ALPHA : float := 0.15.
Definition MAX_ACCEPTABLE_ACCURACY : float := 100.
Definition MIN_MOVEMENT_THRESHOLD : float := 5.
Definition STALENESS_TIMEOUT_MS : Z := 30000.
Definition SNAP_AFTER_STABLE_COUNT : nat := 3.

(** ** The platform's [Math] object

    ECMAScript leaves [Math.sin], [Math.cos], [Math.atan2], [Math.sqrt] and
    the [**] operator implementation-approximated, so the hook is embedded
    over any implementation of them. *)

Class MathLib := {
  Math_sin : float -> float;
  Math_cos : float -> float;
  Math_sqrt : float -> float;
  Math_atan2 : float -> float -> float;
  Math_pow : float -> float -> float
}.

Definition Math_PI : float := 3.141592653589793.

(** ** Pure utilities *)

(** Haversine distance between two lat/lng points in meters. *)
Definition haversine `{MathLib} (lat1 lng1 lat2 lng2 : float) : float :=
  let R := 6371000 in
  let dLat := ((lat2 - lat1) * Math_PI) / 180 in
  let dLng := ((lng2 - lng1) * Math_PI) / 180 in
  let a :=
    Math_pow (Math_sin (dLat / 2)) 2 +
    Math_cos ((lat1 * Math_PI) / 180) *
    Math_cos ((lat2 * Math_PI) / 180) *
    Math_pow (Math_sin (dLng / 2)) 2 in
  R * 2 * Math_atan2 (Math_sqrt a) (Math_sqrt (1 - a)).

(** Apply EMA smoothing to a new position reading. *)
Definition smooth (prev : option GeoPosition) (raw : GeoPosition) (alpha : float)
  : GeoPosition :=
  match prev with
  | None => raw
  | Some prev =>
      {| latitude := alpha * latitude raw + (1 - alpha) * latitude prev;
         longitude := alpha * longitude raw + (1 - alpha) * longitude prev;
         accuracy := alpha * accuracy raw + (1 - alpha) * accuracy prev |}
  end.

(** [useDistanceTo]'s memoised computation. *)
Definition useDistanceTo `{MathLib} (userLat userLng : option float)
    (targetLat targetLng : float) : option float :=
  match userLat, userLng with
  | Some lat, Some lng => Some (haversine lat lng targetLat targetLng)
  | _, _ => None
  end.

(** ** A reference [Math]

    Series implementations, accurate enough to run the hook on examples
    (one degree of longitude at the equator comes out as 111 194.9 m).  They
    make the development executable; the theorems about the hook hold for
    every [MathLib]. *)

Module RefMath.

(** [1 - x2/(c(k)) * (1 - x2/(c(k+1)) * ...)], from the innermost factor. *)
Fixpoint sin_horner (j : nat) (k x2 acc : float) : float :=
  match j with
  | O => acc
  | S j' => sin_horner j' (k - 1) x2 (1 - x2 / ((2 * k) * (2 * k + 1)) * acc)
  end.

Fixpoint cos_horner (j : nat) (k x2 acc : float) : float :=
  match j with
  | O => acc
  | S j' => cos_horner j' (k - 1) x2 (1 - x2 / ((2 * k - 1) * (2 * k)) * acc)
  end.

Definition sin (x : float) : float := x * sin_horner 14 14 (x * x) 1.
Definition cos (x : float) : float := cos_horner 14 14 (x * x) 1.

Fixpoint atan_horner (j : nat) (k t2 acc : float) : float :=
  match j with
  | O => acc
  | S j' => atan_horner j' (k - 1) t2 (1 / (2 * k - 1) - t2 * acc)
  end.

(** [atan t] for [0 <= t <= 1]: three angle halvings, then the series. *)
Definition atan_unit (t : float) : float :=
  let half u := u / (1 + sqrt (1 + u * u)) in
  let u := half (half (half t)) in
  8 * (u * atan_horner 12 12 (u * u) (1 / 25)).

Definition atan_pos (t : float) : float :=
  if t <=? 1 then atan_unit t else Math_PI / 2 - atan_unit (1 / t).

Definition atan (t : float) : float :=
  if t <? 0 then - atan_pos (- t) else atan_pos t.

Definition atan2 (y x : float) : float :=
  if 0 <? x then atan (y / x)
  else if x <? 0 then
    if y <? 0 then atan (y / x) - Math_PI else atan (y / x) + Math_PI
  else if 0 <? y then Math_PI / 2
  else if y <? 0 then - (Math_PI / 2)
  else 0.

(** [x ** n] for a small non-negative integer [n], by repeated product. *)
Fixpoint pow_loop (fuel : nat) (x n k acc : float) : float :=
  match fuel with
  | O => nan
  | S fuel' => if k =? n then acc else pow_loop fuel' x n (k + 1) (acc * x)
  end.

Definition pow (x n : float) : float := pow_loop 64 x n 0 1.

End RefMath.

#[export] Instance refMath : MathLib := {|
  Math_sin := RefMath.sin;
  Math_cos := RefMath.cos;
  Math_sqrt := PrimFloat.sqrt;
  Math_atan2 := RefMath.atan2;
  Math_pow := RefMath.pow
|}.

(** ** The hook and its browser *)

(** A pending [setTimeout]: its id, when it was armed and its delay (ms). *)
Record Timer := mkTimer {
  timer_id : positive;
  timer_armedAt : Z;
  timer_delay : Z
}.

(** React side: [state] (with [setStateCalls], a count of the [setState]
    calls made so far), the five refs and the effect's [cancelled] variable.
    [stableCountRef] only ever holds a small natural number, on which [++]
    is exact.
    Browser side: [navigator.geolocation] and [navigator.permissions.query]
    being there, the clock (ms), the pending timeouts, the active
    [watchPosition] subscriptions, whether the permission query is still
    pending, whether the ['change'] listener is attached, and the number of
    [getCurrentPosition] requests in flight. *)
Record World := mkWorld {
  state : GeolocationState;
  smoothedRef : option GeoPosition;
  lastPushedRef : option GeoPosition;
  stalenessTimerRef : option positive;
  watchIdRef : option positive;
  stableCountRef : nat;
  cancelled : bool;
  setStateCalls : nat;
  geolocation : bool;
  permissionsApi : bool;
  now : Z;
  timers : list Timer;
  nextTimer : positive;
  watches : list positive;
  nextWatch : positive;
  queryPending : bool;
  listening : bool;
  oneShots : nat
}.

Definition set_state (v : GeolocationState) (w : World) : World :=
  mkWorld v (smoothedRef w) (lastPushedRef w) (stalenessTimerRef w)
    (watchIdRef w) (stableCountRef w) (cancelled w) (setStateCalls w)
    (geolocation w) (permissionsApi w) (now w) (timers w) (nextTimer w)
    (watches w) (nextWatch w) (queryPending w) (listening w) (oneShots w).

Definition set_smoothedRef (v : option GeoPosition) (w : World) : World :=
  mkWorld (state w) v (lastPushedRef w) (stalenessTimerRef w) (watchIdRef w)
    (stableCountRef w) (cancelled w) (setStateCalls w) (geolocation w)
    (permissionsApi w) (now w) (timers w) (nextTimer w) (watches w)
    (nextWatch w) (queryPending w) (listening w) (oneShots w).

Definition set_lastPushedRef (v : option GeoPosition) (w : World) : World :=
  mkWorld (state w) (smoothedRef w) v (stalenessTimerRef w) (watchIdRef w)
    (stableCountRef w) (cancelled w) (setStateCalls w) (geolocation w)
    (permissionsApi w) (now w) (timers w) (nextTimer w) (watches w)
    (nextWatch w) (queryPending w) (listening w) (oneShots w).

Definition set_stalenessTimerRef (v : option positive) (w : World) : World :=
  mkWorld (state w) (smoothedRef w) (lastPushedRef w) v (watchIdRef w)
    (stableCountRef w) (cancelled w) (setStateCalls w) (geolocation w)
    (permissionsApi w) (now w) (timers w) (nextTimer w) (watches w)
    (nextWatch w) (queryPending w) (listening w) (oneShots w).

Definition set_watchIdRef (v : option positive) (w : World) : World :=
  mkWorld (state w) (smoothedRef w) (lastPushedRef w) (stalenessTimerRef w) v
    (stableCountRef w) (cancelled w) (setStateCalls w) (geolocation w)
    (permissionsApi w) (now w) (timers w) (nextTimer w) (watches w)
    (nextWatch w) (queryPending w) (listening w) (oneShots w).

Definition set_stableCountRef (v : nat) (w : World) : World :=
  mkWorld (state w) (smoothedRef w) (lastPushedRef w) (stalenessTimerRef w)
    (watchIdRef w) v (cancelled w) (setStateCalls w) (geolocation w)
    (permissionsApi w) (now w) (timers w) (nextTimer w) (watches w)
    (nextWatch w) (queryPending w) (listening w) (oneShots w).

Definition set_cancelled (v : bool) (w : World) : World :=
  mkWorld (state w) (smoothedRef w) (lastPushedRef w) (stalenessTimerRef w)
    (watchIdRef w) (stableCountRef w) v (setStateCalls w) (geolocation w)
    (permissionsApi w) (now w) (timers w) (nextTimer w) (watches w)
    (nextWatch w) (queryPending w) (listening w) (oneShots w).

Definition set_setStateCalls (v : nat) (w : World) : World :=
  mkWorld (state w) (smoothedRef w) (lastPushedRef w) (stalenessTimerRef w)
    (watchIdRef w) (stableCountRef w) (cancelled w) v (geolocation w)
    (permissionsApi w) (now w) (timers w) (nextTimer w) (watches w)
    (nextWatch w) (queryPending w) (listening w) (oneShots w).

Definition set_now (v : Z) (w : World) : World :=
  mkWorld (state w) (smoothedRef w) (lastPushedRef w) (stalenessTimerRef w)
    (watchIdRef w) (stableCountRef w) (cancelled w) (setStateCalls w)
    (geolocation w) (permissionsApi w) v (timers w) (nextTimer w) (watches w)
    (nextWatch w) (queryPending w) (listening w) (oneShots w).

Definition set_timers (v : list Timer) (w : World) : World :=
  mkWorld (state w) (smoothedRef w) (lastPushedRef w) (stalenessTimerRef w)
    (watchIdRef w) (stableCountRef w) (cancelled w) (setStateCalls w)
    (geolocation w) (permissionsApi w) (now w) v (nextTimer w) (watches w)
    (nextWatch w) (queryPending w) (listening w) (oneShots w).

Definition set_nextTimer (v : positive) (w : World) : World :=
  mkWorld (state w) (smoothedRef w) (lastPushedRef w) (stalenessTimerRef w)
    (watchIdRef w) (stableCountRef w) (cancelled w) (setStateCalls w)
    (geolocation w) (permissionsApi w) (now w) (timers w) v (watches w)
    (nextWatch w) (queryPending w) (listening w) (oneShots w).

Definition set_watches (v : list positive) (w : World) : World :=
  mkWorld (state w) (smoothedRef w) (lastPushedRef w) (stalenessTimerRef w)
    (watchIdRef w) (stableCountRef w) (cancelled w) (setStateCalls w)
    (geolocation w) (permissionsApi w) (now w) (timers w) (nextTimer w) v
    (nextWatch w) (queryPending w) (listening w) (oneShots w).

Definition set_nextWatch (v : positive) (w : World) : World :=
  mkWorld (state w) (smoothedRef w) (lastPushedRef w) (stalenessTimerRef w)
    (watchIdRef w) (stableCountRef w) (cancelled w) (setStateCalls w)
    (geolocation w) (permissionsApi w) (now w) (timers w) (nextTimer w)
    (watches w) v (queryPending w) (listening w) (oneShots w).

Definition set_queryPending (v : bool) (w : World) : World :=
  mkWorld (state w) (smoothedRef w) (lastPushedRef w) (stalenessTimerRef w)
    (watchIdRef w) (stableCountRef w) (cancelled w) (setStateCalls w)
    (geolocation w) (permissionsApi w) (now w) (timers w) (nextTimer w)
    (watches w) (nextWatch w) v (listening w) (oneShots w).

Definition set_listening (v : bool) (w : World) : World :=
  mkWorld (state w) (smoothedRef w) (lastPushedRef w) (stalenessTimerRef w)
    (watchIdRef w) (stableCountRef w) (cancelled w) (setStateCalls w)
    (geolocation w) (permissionsApi w) (now w) (timers w) (nextTimer w)
    (watches w) (nextWatch w) (queryPending w) v (oneShots w).

Definition set_oneShots (v : nat) (w : World) : World :=
  mkWorld (state w) (smoothedRef w) (lastPushedRef w) (stalenessTimerRef w)
    (watchIdRef w) (stableCountRef w) (cancelled w) (setStateCalls w)
    (geolocation w) (permissionsApi w) (now w) (timers w) (nextTimer w)
    (watches w) (nextWatch w) (queryPending w) (listening w) v.

(** [setState(updater)]; [setState(obj)] is [setState (fun _ => obj)]. *)
Definition setState (f : GeolocationState -> GeolocationState) (w : World)
  : World :=
  set_setStateCalls (S (setStateCalls w)) (set_state (f (state w)) w).

(** *** Browser primitives *)

Definition clearTimeout (id : positive) (w : World) : World :=
  set_timers (filter (fun t => negb (Pos.eqb (timer_id t) id)) (timers w)) w.

Definition setTimeout (delay : Z) (w : World) : positive * World :=
  let id := nextTimer w in
  (id, set_nextTimer (Pos.succ id)
         (set_timers (mkTimer id (now w) delay :: timers w) w)).

Definition clearWatch (id : positive) (w : World) : World :=
  set_watches (filter (fun i => negb (Pos.eqb i id)) (watches w)) w.

Definition watchPosition (w : World) : positive * World :=
  let id := nextWatch w in
  (id, set_nextWatch (Pos.succ id) (set_watches (id :: watches w) w)).

(** *** The staleness watchdog *)

Definition SIGNAL_LOST : string := "Location signal lost. Move to an open area.".

(** The timeout's callback:
    [setState(prev => ({ ...prev, stale: true, error: '...' }))]. *)
Definition onStale (w : World) : World :=
  setState (fun prev =>
    {| state_latitude := state_latitude prev;
       state_longitude := state_longitude prev;
       state_accuracy := state_accuracy prev;
       error := Some SIGNAL_LOST;
       loading := loading prev;
       permissionState := permissionState prev;
       stale := true |}) w.

(** [if (stalenessTimerRef.current) clearTimeout(stalenessTimerRef.current);
     stalenessTimerRef.current = setTimeout(..., STALENESS_TIMEOUT_MS);]
    (timer ids are positive, hence truthy). *)
Definition rearmStaleness (w : World) : World :=
  let w1 := match stalenessTimerRef w with
            | Some id => clearTimeout id w
            | None => w
            end in
  let (id, w2) := setTimeout STALENESS_TIMEOUT_MS w1 in
  set_stalenessTimerRef (Some id) w2.

(** *** handlePosition *)

Definition isSome {A} (o : option A) : bool :=
  match o with Some _ => true | None => false end.

(** Truthiness of a [string | null]: the empty string is falsy. *)
Definition truthy (o : option string) : bool :=
  match o with
  | Some s => negb (String.eqb s EmptyString)
  | None => false
  end.

Definition isGranted (p : PermissionState) : bool :=
  match p with granted => true | _ => false end.

(** [prev => (prev.loading || prev.error || prev.stale ||
              prev.permissionState !== 'granted')
        ? { ...prev, error: null, loading: false,
            permissionState: 'granted', stale: false } : prev] *)
Definition clearFlags (prev : GeolocationState) : GeolocationState :=
  if loading prev || truthy (error prev) || stale prev
     || negb (isGranted (permissionState prev))
  then {| state_latitude := state_latitude prev;
          state_longitude := state_longitude prev;
          state_accuracy := state_accuracy prev;
          error := None;
          loading := false;
          permissionState := granted;
          stale := false |}
  else prev.

Definition rawOf (pos : GeolocationCoordinates) : GeoPosition :=
  {| latitude := coords_latitude pos;
     longitude := coords_longitude pos;
     accuracy := coords_accuracy pos |}.

Section Hook.
Context `{MathLib}.

(** Lines 135-176: smoothing, watchdog reset and the movement threshold. *)
Definition smoothAndPublish (pos : GeolocationCoordinates) (w : World)
  : World :=
  let raw := rawOf pos in
  let smoothed := smooth (smoothedRef w) raw EMA_ALPHA in
  let w := set_smoothedRef (Some smoothed) w in
  let w := rearmStaleness w in
  let shouldPush :=
    match lastPushedRef w with
    | None => true
    | Some prev =>
        MIN_MOVEMENT_THRESHOLD <=?
          haversine (latitude prev) (longitude prev)
                    (latitude smoothed) (longitude smoothed)
    end in
  if shouldPush then
    let w := set_lastPushedRef (Some smoothed) w in
    setState (fun _ =>
      {| state_latitude := Some (latitude smoothed);
         state_longitude := Some (longitude smoothed);
         state_accuracy := Some (accuracy smoothed);
         error := None;
         loading := false;
         permissionState := granted;
         stale := false |}) w
  else setState clearFlags w.

(** [pos.speed !== null && pos.speed >= 0 && pos.speed < 0.3
     && smoothedRef.current] *)
Definition stationary (pos : GeolocationCoordinates) (w : World) : bool :=
  match coords_speed pos with
  | Some speed => (0 <=? speed) && (speed <? 0.3) && isSome (smoothedRef w)
  | None => false
  end.

Definition handlePosition (pos : GeolocationCoordinates) (w : World)
  : World :=
  if (MAX_ACCEPTABLE_ACCURACY <? coords_accuracy pos)
     && isSome (smoothedRef w)
  then w
  else if stationary pos w then
    let w := set_stableCountRef (S (stableCountRef w)) w in
    if (SNAP_AFTER_STABLE_COUNT <=? stableCountRef w)%nat then
      let w := rearmStaleness w in
      setState clearFlags w
    else smoothAndPublish pos w
  else
    let w := set_stableCountRef O w in
    smoothAndPublish pos w.


(** *** handleError *)

Definition ACCESS_DENIED : string :=
  "Location access denied. Please enable location in your browser settings to play.".
Definition ACQUIRING : string :=
  "Acquiring location… Please ensure GPS is enabled.".

(** [if (watchIdRef.current !== null) {
       navigator.geolocation.clearWatch(watchIdRef.current);
       watchIdRef.current = null; }] *)
Definition stopWatching (w : World) : World :=
  match watchIdRef w with
  | Some id => set_watchIdRef None (clearWatch id w)
  | None => w
  end.

Definition handleError (e : GeolocationPositionError) (w : World) : World :=
  match code e with
  | PERMISSION_DENIED =>
      let w := setState (fun prev =>
        {| state_latitude := state_latitude prev;
           state_longitude := state_longitude prev;
           state_accuracy := state_accuracy prev;
           error := Some ACCESS_DENIED;
           loading := false;
           permissionState := denied;
           stale := stale prev |}) w in
      stopWatching w
  | _ =>
      setState (fun prev =>
        {| state_latitude := state_latitude prev;
           state_longitude := state_longitude prev;
           state_accuracy := state_accuracy prev;
           error := match state_latitude prev with
                    | None => Some ACQUIRING
                    | Some _ => None
                    end;
           loading := negb (isSome (state_latitude prev));
           permissionState := permissionState prev;
           stale := stale prev |}) w
  end.

(** *** The effect: permission check and watchPosition *)

Definition NOT_SUPPORTED : string :=
  "Location services are not supported by your browser.".
Definition ACCESS_REVOKED : string := "Location access revoked.".

Definition initialState : GeolocationState :=
  {| state_latitude := None;
     state_longitude := None;
     state_accuracy := None;
     error := None;
     loading := true;
     permissionState := prompt;
     stale := false |}.

(** The hook before its effect has run, in a browser that has
    [navigator.geolocation] / [navigator.permissions.query] or not. *)
Definition initialWorld (hasGeolocation hasPermissions : bool) : World :=
  {| state := initialState;
     smoothedRef := None;
     lastPushedRef := None;
     stalenessTimerRef := None;
     watchIdRef := None;
     stableCountRef := O;
     cancelled := false;
     setStateCalls := O;
     geolocation := hasGeolocation;
     permissionsApi := hasPermissions;
     now := 0%Z;
     timers := [];
     nextTimer := 1%positive;
     watches := [];
     nextWatch := 1%positive;
     queryPending := false;
     listening := false;
     oneShots := O |}.

Definition startWatching (w : World) : World :=
  if cancelled w then w
  else
    let (id, w) := watchPosition w in
    set_watchIdRef (Some id) w.

(** The body of the effect up to its [return]: the permission query, when
    there is one, is left pending. *)
Definition effect (w : World) : World :=
  if negb (geolocation w) then
    setState (fun prev =>
      {| state_latitude := state_latitude prev;
         state_longitude := state_longitude prev;
         state_accuracy := state_accuracy prev;
         error := Some NOT_SUPPORTED;
         loading := false;
         permissionState := unsupported;
         stale := stale prev |}) w
  else if permissionsApi w then set_queryPending true w
  else startWatching w.

Definition setPermissionState (p : PermissionState) (w : World) : World :=
  setState (fun prev =>
    {| state_latitude := state_latitude prev;
       state_longitude := state_longitude prev;
       state_accuracy := state_accuracy prev;
       error := error prev;
       loading := loading prev;
       permissionState := p;
       stale := stale prev |}) w.

(** The query's [.then] handler. *)
Definition onQueryResolved (result : PermissionStatusState) (w : World)
  : World :=
  if cancelled w then w
  else
    match result with
    | status_denied =>
        setState (fun prev =>
          {| state_latitude := state_latitude prev;
             state_longitude := state_longitude prev;
             state_accuracy := state_accuracy prev;
             error := Some ACCESS_DENIED;
             loading := false;
             permissionState := denied;
             stale := stale prev |}) w
    | _ =>
        let w := setPermissionState (asPermissionState result) w in
        let w := startWatching w in
        set_listening true w
    end.

(** The query's [.catch] handler. *)
Definition onQueryRejected (w : World) : World :=
  if negb (cancelled w) then startWatching w else w.

(** The ['change'] listener; [result] is [result.state] when it runs. *)
Definition onPermissionChange (result : PermissionStatusState) (w : World)
  : World :=
  match result with
  | status_denied =>
      let w := setState (fun prev =>
        {| state_latitude := state_latitude prev;
           state_longitude := state_longitude prev;
           state_accuracy := state_accuracy prev;
           error := Some ACCESS_REVOKED;
           loading := loading prev;
           permissionState := denied;
           stale := stale prev |}) w in
      stopWatching w
  | status_granted =>
      match watchIdRef w with
      | None => startWatching w
      | Some _ => w
      end
  | status_prompt => w
  end.

(** The function the effect returns. *)
Definition cleanup (w : World) : World :=
  let w := set_cancelled true w in
  let w := stopWatching w in
  match stalenessTimerRef w with
  | Some id => clearTimeout id w
  | None => w
  end.

(** *** recalibrate *)

Definition recalibrate (w : World) : World :=
  if negb (geolocation w) then w
  else
    let w := setState (fun prev =>
      {| state_latitude := state_latitude prev;
         state_longitude := state_longitude prev;
         state_accuracy := state_accuracy prev;
         error := None;
         loading := true;
         permissionState := permissionState prev;
         stale := false |}) w in
    set_oneShots (S (oneShots w)) w.

(** The error callback of [getCurrentPosition]. *)
Definition onRecalibrateError (err : GeolocationPositionError) (w : World)
  : World :=
  setState (fun prev =>
    {| state_latitude := state_latitude prev;
       state_longitude := state_longitude prev;
       state_accuracy := state_accuracy prev;
       error := Some ("Recalibration failed: " ++ message err)%string;
       loading := false;
       permissionState := permissionState prev;
       stale := stale prev |}) w.

(** ** The event loop

    One event is one callback run to completion, the consumer calling
    [recalibrate] or unmounting, or time passing.  [step] is [None] when the
    browser cannot deliver the event in that world. *)

Inductive Event :=
| QueryResolved (result : PermissionStatusState)
| QueryRejected
| PermissionChange (result : PermissionStatusState)
| WatchSuccess (id : positive) (pos : GeolocationCoordinates)
| WatchError (id : positive) (err : GeolocationPositionError)
| Recalibrate
| OneShotSuccess (pos : GeolocationCoordinates)
| OneShotError (err : GeolocationPositionError)
| TimerFired (id : positive)
| Cleanup
| Tick (dt : Z).

Definition watching (id : positive) (w : World) : bool :=
  existsb (Pos.eqb id) (watches w).

(** The timeout [id] is pending and its delay has elapsed. *)
Definition due (id : positive) (w : World) : bool :=
  existsb (fun t => Pos.eqb (timer_id t) id
                    && (timer_armedAt t + timer_delay t <=? now w)%Z)
          (timers w).

Definition step (e : Event) (w : World) : option World :=
  match e with
  | QueryResolved result =>
      if queryPending w
      then Some (onQueryResolved result (set_queryPending false w))
      else None
  | QueryRejected =>
      if queryPending w
      then Some (onQueryRejected (set_queryPending false w))
      else None
  | PermissionChange result =>
      if listening w then Some (onPermissionChange result w) else None
  | WatchSuccess id pos =>
      if watching id w then Some (handlePosition pos w) else None
  | WatchError id err =>
      if watching id w then Some (handleError err w) else None
  | Recalibrate => Some (recalibrate w)
  | OneShotSuccess pos =>
      match oneShots w with
      | S n => Some (handlePosition pos (set_oneShots n w))
      | O => None
      end
  | OneShotError err =>
      match oneShots w with
      | S n => Some (onRecalibrateError err (set_oneShots n w))
      | O => None
      end
  | TimerFired id =>
      (* a timeout that has run is no longer pending *)
      if due id w then Some (onStale (clearTimeout id w)) else None
  | Cleanup =>
      if geolocation w then Some (cleanup w) else Some w
  | Tick dt =>
      if (0 <=? dt)%Z then Some (set_now (now w + dt)%Z w) else None
  end.

(** Running a list of events, stopping at the first that cannot happen. *)
Fixpoint run (es : list Event) (w : World) : option World :=
  match es with
  | [] => Some w
  | e :: es' =>
      match step e w with
      | Some w' => run es' w'
      | None => None
      end
  end.

(** The worlds the mounted hook can be in. *)
Inductive reachable : World -> Prop :=
| reachable_mount (hasGeolocation hasPermissions : bool) :
    reachable (effect (initialWorld hasGeolocation hasPermissions))
| reachable_step (e : Event) (w w' : World) :
    reachable w -> step e w = Some w' -> reachable w'.

(** The world after [es], as far as the events can happen. *)
Fixpoint play (es : list Event) (w : World) : World :=
  match es with
  | [] => w
  | e :: es' =>
      match step e w with
      | Some w' => play es' w'
      | None => w
      end
  end.

(** ** Vocabulary of the specification *)

(** What [setState] receives when a position is published. *)
Definition publishedState (p : GeoPosition) : GeolocationState :=
  {| state_latitude := Some (latitude p);
     state_longitude := Some (longitude p);
     state_accuracy := Some (accuracy p);
     error := None;
     loading := false;
     permissionState := granted;
     stale := false |}.

Definition flagsClear (s : GeolocationState) : Prop :=
  error s = None /\ loading s = false /\ stale s = false
  /\ permissionState s = granted.

Definition sameCoordinates (s s' : GeolocationState) : Prop :=
  state_latitude s' = state_latitude s
  /\ state_longitude s' = state_longitude s
  /\ state_accuracy s' = state_accuracy s.

(** From [w] to [w'] the watchdog was rearmed: the one pending timeout is a
    fresh one, armed at the time of [w] for 30 s, and the ref holds it. *)
Definition watchdogRearmed (w w' : World) : Prop :=
  stalenessTimerRef w' = Some (nextTimer w)
  /\ timers w' = [mkTimer (nextTimer w) (now w) STALENESS_TIMEOUT_MS].

(** The accuracy gate discards the reading. *)
Definition accuracyRejects (pos : GeolocationCoordinates) (w : World) : bool :=
  (MAX_ACCEPTABLE_ACCURACY <? coords_accuracy pos) && isSome (smoothedRef w).

(** The speed gate takes the snap branch. *)
Definition snaps (pos : GeolocationCoordinates) (w : World) : bool :=
  stationary pos w && (SNAP_AFTER_STABLE_COUNT <=? S (stableCountRef w))%nat.

(** The reading is accepted: it gets to smoothing and the movement gate. *)
Definition reachesSmoothing (pos : GeolocationCoordinates) (w : World) : bool :=
  negb (accuracyRejects pos w) && negb (snaps pos w).

Definition distanceFromPublished (p s : GeoPosition) : float :=
  haversine (latitude p) (longitude p) (latitude s) (longitude s).

(** [shouldPush] of the source, for the reading [pos] arriving in [w]. *)
Definition shouldPush (pos : GeolocationCoordinates) (w : World) : bool :=
  match lastPushedRef w with
  | None => true
  | Some prev =>
      MIN_MOVEMENT_THRESHOLD <=?
        distanceFromPublished prev (smooth (smoothedRef w) (rawOf pos) EMA_ALPHA)
  end.

(** Nothing but the watchdog differs between [w] and [w']. *)
Definition unchangedButWatchdog (w w' : World) : Prop :=
  smoothedRef w' = smoothedRef w /\ lastPushedRef w' = lastPushedRef w
  /\ stableCountRef w' = stableCountRef w /\ state w' = state w.

Definition deniedNotWatching (w : World) : Prop :=
  permissionState (state w) = denied -> watchIdRef w = None.

(** Time has reached [T] and no pending timeout was armed before [T]. *)
Definition armedSince (T : Z) (w : World) : Prop :=
  (T <= now w)%Z /\ forall t, In t (timers w) -> (T <= timer_armedAt t)%Z.

(** Pipeline invariant: the smoothed position, the published position and
    the exposed latitude come into being together; the public error is never
    the empty string; every pending timeout is the watchdog's current one. *)
Record Inv (w : World) : Prop := {
  inv_pushed : isSome (lastPushedRef w) = isSome (smoothedRef w);
  inv_latitude : isSome (state_latitude (state w)) = isSome (lastPushedRef w);
  inv_error : truthy (error (state w)) = isSome (error (state w));
  inv_timers : forall t, In t (timers w) ->
      stalenessTimerRef w = Some (timer_id t)
      /\ timer_delay t = STALENESS_TIMEOUT_MS
      /\ (timer_armedAt t <= now w)%Z
}.

(** Controller invariant: the browser's subscriptions are the one in
    [watchIdRef]; while the permission query is pending there is no
    subscription, no listener and no denial. *)
Record Ctl (w : World) : Prop := {
  ctl_watches : forall id, In id (watches w) -> watchIdRef w = Some id;
  ctl_query : queryPending w = true ->
      watchIdRef w = None /\ listening w = false
      /\ permissionState (state w) <> denied
}.

End Hook.

(** ** Sample runs, on the reference [Math] *)

(** Mounted in a browser without the Permissions API: watching at once. *)
Definition mounted : World := effect (initialWorld true false).

(** Mounted in a browser with the Permissions API: the query is pending. *)
Definition mountedWithPermissions : World := effect (initialWorld true true).

Definition reading10 : GeolocationCoordinates := mkCoords 10 10 10 None.
Definition reading20 : GeolocationCoordinates := mkCoords 20 20 20 None.
Definition readingStill : GeolocationCoordinates := mkCoords 10 10 10 (Some 0).
Definition readingNear : GeolocationCoordinates := mkCoords 10.00001 10 10 None.
Definition readingCoarse : GeolocationCoordinates := mkCoords 10 10 500 None.
Definition timedOut : GeolocationPositionError :=
  mkError TIMEOUT "Timeout expired".

(** A baseline at (10,10,10), published. *)
Definition withBaseline : World := play [WatchSuccess 1 reading10] mounted.

(** Two stationary readings after the baseline: the stable count is 2. *)
Definition twiceStill : World :=
  play [WatchSuccess 1 readingStill; WatchSuccess 1 readingStill] withBaseline.

(** The watchdog has fired on the baseline. *)
Definition signalLost : World :=
  play [Tick 30000; TimerFired 1] withBaseline.

(** ** More vocabulary: the shape of reachable worlds *)

(** What the public state exposes is the published position. *)
Definition exposesPublished (w : World) : Prop :=
  match lastPushedRef w with
  | Some p =>
      state_latitude (state w) = Some (latitude p)
      /\ state_longitude (state w) = Some (longitude p)
      /\ state_accuracy (state w) = Some (accuracy p)
  | None =>
      state_latitude (state w) = None
      /\ state_longitude (state w) = None
      /\ state_accuracy (state w) = None
      /\ smoothedRef w = None
  end.

Definition isUnsupported (p : PermissionState) : bool :=
  match p with unsupported => true | _ => false end.

(** [{ latitude: null, ..., error: 'Location services are not supported by
    your browser.', loading: false, permissionState: 'unsupported' }] *)
Definition unsupportedState : GeolocationState :=
  {| state_latitude := None;
     state_longitude := None;
     state_accuracy := None;
     error := Some NOT_SUPPORTED;
     loading := false;
     permissionState := unsupported;
     stale := false |}.

(** The reading reports a speed in [0, 0.3). *)
Definition reportsStill (pos : GeolocationCoordinates) : bool :=
  match coords_speed pos with
  | Some v => (0 <=? v) && (v <? 0.3)
  | None => false
  end.

Definition isReading (e : Event) : bool :=
  match e with
  | WatchSuccess _ _ | OneShotSuccess _ => true
  | _ => false
  end.

Definition isRegrant (e : Event) : bool :=
  match e with
  | PermissionChange status_granted => true
  | _ => false
  end.

Section HookShape.
Context `{MathLib}.

(** The published position is the smoothed one, or within the movement
    threshold of it (the test [distance >= 5] of the source fails). *)
Definition publishedTracksSmoothed (w : World) : Prop :=
  forall p s, lastPushedRef w = Some p -> smoothedRef w = Some s ->
    p = s
    \/ (MIN_MOVEMENT_THRESHOLD <=? distanceFromPublished p s) = false.

(** Shape of a reachable world: one subscription at most, the one in
    [watchIdRef]; one pending timeout at most; the exposed coordinates are
    the published position, which tracks the smoothed one; the permission
    state is [unsupported] exactly without [navigator.geolocation]. *)
Record Shape (w : World) : Prop := {
  shape_watches :
    watches w = match watchIdRef w with Some id => [id] | None => [] end;
  shape_timers : (List.length (timers w) <= 1)%nat;
  shape_exposed : exposesPublished w;
  shape_tracks : publishedTracksSmoothed w;
  shape_unsupported :
    isUnsupported (permissionState (state w)) = negb (geolocation w);
  shape_dead : geolocation w = false ->
    state w = state (effect (initialWorld false false))
    /\ watchIdRef w = None /\ timers w = [] /\ queryPending w = false
    /\ listening w = false /\ oneShots w = O
}.

(** Readings fed to the pipeline one after the other. *)
Definition feed (ps : list GeolocationCoordinates) (w : World) : World :=
  fold_left (fun w pos => handlePosition pos w) ps w.

End HookShape.

(** ** GameScreen and BottomSheet: the distance to the selected cache *)

(** The fields of [Cache] ([lib/types], not among the sources) that the
    screens read; a coordinate may be null in the row. *)
Record Cache := mkCache {
  cache_name : string;
  cache_lat : option float;
  cache_lng : option float;
  cache_hint : option string;
  cache_is_found : bool;
  cache_secret_code : string
}.

(** [{ latitude, longitude }], the admin's mock location or the fix. *)
Record Location := mkLocation {
  loc_latitude : float;
  loc_longitude : float
}.

(** [x ?? d] *)
Definition orElse {A} (x : option A) (d : A) : A :=
  match x with Some a => a | None => d end.

(** Distance in meters at which the hint becomes visible. *)
Definition HINT_PROXIMITY_METERS : float := 50.

(** [effectiveLocation] of GameScreen: the mock location when there is one,
    else the hook's coordinates when both are there. *)
Definition effectiveLocation (mockLocation : option Location)
    (geo : GeolocationState) : option Location :=
  match mockLocation with
  | Some m => Some m
  | None =>
      match state_latitude geo, state_longitude geo with
      | Some lat, Some lng => Some (mkLocation lat lng)
      | _, _ => None
      end
  end.

(** [isNearby] of BottomSheet. *)
Definition isNearby (distance : option float) : bool :=
  match distance with
  | Some d => d <=? HINT_PROXIMITY_METERS
  | None => false
  end.

(** What BottomSheet renders for the hint. *)
Inductive HintBlock := NoHintBlock | HintLocked | HintUnlocked.

Definition hintBlock (cache : option Cache) (distance : option float)
  : HintBlock :=
  match cache with
  | None => NoHintBlock
  | Some c =>
      if truthy (cache_hint c) && negb (cache_is_found c)
      then if isNearby distance then HintUnlocked else HintLocked
      else NoHintBlock
  end.

(** [activeCaches] of GameScreen, whose length the status bar shows. *)
Definition activeCaches (caches : list Cache) : list Cache :=
  filter (fun c => negb (cache_is_found c)) caches.

(** [foundCount] and [hiddenCount] of the admin's DashboardView. *)
Definition foundCount (caches : list Cache) : Z :=
  Z.of_nat (List.length (filter cache_is_found caches)).

Definition hiddenCount (caches : list Cache) : Z :=
  (Z.of_nat (List.length caches) - foundCount caches)%Z.

Section Game.
Context `{MathLib}.

(** [distance] of GameScreen:
    [useDistanceTo(effectiveLocation?.latitude ?? null,
                   effectiveLocation?.longitude ?? null,
                   selectedCache?.lat ?? 0, selectedCache?.lng ?? 0)]. *)
Definition selectedDistance (mockLocation : option Location)
    (geo : GeolocationState) (selectedCache : option Cache) : option float :=
  let loc := effectiveLocation mockLocation geo in
  useDistanceTo (option_map loc_latitude loc) (option_map loc_longitude loc)
    (orElse (match selectedCache with
             | Some c => cache_lat c
             | None => None
             end) 0)
    (orElse (match selectedCache with
             | Some c => cache_lng c
             | None => None
             end) 0).

(** The hint block of the sheet as GameScreen renders it:
    [distance={selectedCache ? distance : null}]. *)
Definition sheetHint (mockLocation : option Location)
    (geo : GeolocationState) (selectedCache : option Cache) : HintBlock :=
  hintBlock selectedCache
    (match selectedCache with
     | Some _ => selectedDistance mockLocation geo selectedCache
     | None => None
     end).

End Game.

(** ** GameScreen: live player tracking

    The effect that broadcasts the player's location on the presence
    channel, at most once per cooldown.  [Date.now()] is the model's clock;
    it moves between callbacks, not within one. *)

(** What [channel.track] is given. *)
Record Presence := mkPresence {
  presence_userId : string;
  presence_teamName : string;
  presence_latitude : float;
  presence_longitude : float;
  lastTick : Z
}.

(** A pending [setTimeout(broadcast, delay)], with what its closure holds. *)
Record PendingBroadcast := mkPendingBroadcast {
  pb_id : positive;
  pb_armedAt : Z;
  pb_delay : Z;
  pb_userId : string;
  pb_teamName : string;
  pb_location : Location
}.

(** The two refs of the effect, whether the run of the effect in force
    returned a cleanup function, whether [trackingChannelRef.current] is
    set, the clock, the pending timeouts, and the presences tracked so far,
    newest first. *)
Record Tracker := mkTracker {
  lastBroadcastRef : Z;
  pendingBroadcastTimeoutRef : option positive;
  hasCleanup : bool;
  channelUp : bool;
  clock : Z;
  pendingBroadcasts : list PendingBroadcast;
  nextBroadcastTimer : positive;
  tracked : list Presence
}.

Definition cooldown : Z := 15000.

Definition initialTracker (t0 : Z) : Tracker :=
  {| lastBroadcastRef := 0;
     pendingBroadcastTimeoutRef := None;
     hasCleanup := false;
     channelUp := false;
     clock := t0;
     pendingBroadcasts := [];
     nextBroadcastTimer := 1;
     tracked := [] |}.

(** [broadcast], closed over [userId], [teamName] and [effectiveLocation]. *)
Definition broadcast (uid team : string) (loc : Location) (w : Tracker)
  : Tracker :=
  if negb (channelUp w) then w
  else
    {| lastBroadcastRef := clock w;
       pendingBroadcastTimeoutRef := None;
       hasCleanup := hasCleanup w;
       channelUp := channelUp w;
       clock := clock w;
       pendingBroadcasts := pendingBroadcasts w;
       nextBroadcastTimer := nextBroadcastTimer w;
       tracked := mkPresence uid team (loc_latitude loc) (loc_longitude loc)
                    (clock w) :: tracked w |}.

Definition cancelBroadcast (id : positive) (w : Tracker) : Tracker :=
  {| lastBroadcastRef := lastBroadcastRef w;
     pendingBroadcastTimeoutRef := pendingBroadcastTimeoutRef w;
     hasCleanup := hasCleanup w;
     channelUp := channelUp w;
     clock := clock w;
     pendingBroadcasts :=
       filter (fun t => negb (Pos.eqb (pb_id t) id)) (pendingBroadcasts w);
     nextBroadcastTimer := nextBroadcastTimer w;
     tracked := tracked w |}.

(** The cleanup function the effect returns. *)
Definition broadcastCleanup (w : Tracker) : Tracker :=
  match pendingBroadcastTimeoutRef w with
  | Some id =>
      let w := cancelBroadcast id w in
      {| lastBroadcastRef := lastBroadcastRef w;
         pendingBroadcastTimeoutRef := None;
         hasCleanup := hasCleanup w;
         channelUp := channelUp w;
         clock := clock w;
         pendingBroadcasts := pendingBroadcasts w;
         nextBroadcastTimer := nextBroadcastTimer w;
         tracked := tracked w |}
  | None => w
  end.

Definition set_hasCleanup (b : bool) (w : Tracker) : Tracker :=
  {| lastBroadcastRef := lastBroadcastRef w;
     pendingBroadcastTimeoutRef := pendingBroadcastTimeoutRef w;
     hasCleanup := b;
     channelUp := channelUp w;
     clock := clock w;
     pendingBroadcasts := pendingBroadcasts w;
     nextBroadcastTimer := nextBroadcastTimer w;
     tracked := tracked w |}.

(** [pendingBroadcastTimeoutRef.current =
       setTimeout(broadcast, cooldown - timeSinceLast)] *)
Definition scheduleBroadcast (delay : Z) (uid team : string) (loc : Location)
    (w : Tracker) : Tracker :=
  {| lastBroadcastRef := lastBroadcastRef w;
     pendingBroadcastTimeoutRef := Some (nextBroadcastTimer w);
     hasCleanup := hasCleanup w;
     channelUp := channelUp w;
     clock := clock w;
     pendingBroadcasts :=
       mkPendingBroadcast (nextBroadcastTimer w) (clock w) delay uid team loc
       :: pendingBroadcasts w;
     nextBroadcastTimer := Pos.succ (nextBroadcastTimer w);
     tracked := tracked w |}.

(** The body of the effect, for the values of its dependencies. *)
Definition broadcastEffect (uid team : option string) (loc : option Location)
    (w : Tracker) : Tracker :=
  match uid, team, loc with
  | Some u, Some t, Some l =>
      if truthy uid && truthy team && channelUp w then
        let timeSinceLast := (clock w - lastBroadcastRef w)%Z in
        let w :=
          if (cooldown <=? timeSinceLast)%Z then broadcast u t l w
          else if isSome (pendingBroadcastTimeoutRef w) then w
          else scheduleBroadcast (cooldown - timeSinceLast) u t l w in
        set_hasCleanup true w
      else set_hasCleanup false w
  | _, _, _ => set_hasCleanup false w
  end.

Definition runBroadcastCleanup (w : Tracker) : Tracker :=
  if hasCleanup w then broadcastCleanup w else w.

Inductive TrackingEvent :=
| Render (uid team : option string) (loc : option Location)
| Unmount
| SetChannel (up : bool)
| BroadcastTimerFired (id : positive)
| ClockTick (dt : Z).

Definition dueBroadcast (id : positive) (w : Tracker) : option PendingBroadcast :=
  find (fun t => Pos.eqb (pb_id t) id
                 && (pb_armedAt t + pb_delay t <=? clock w)%Z)
       (pendingBroadcasts w).

Definition set_channelUp (b : bool) (w : Tracker) : Tracker :=
  {| lastBroadcastRef := lastBroadcastRef w;
     pendingBroadcastTimeoutRef := pendingBroadcastTimeoutRef w;
     hasCleanup := hasCleanup w;
     channelUp := b;
     clock := clock w;
     pendingBroadcasts := pendingBroadcasts w;
     nextBroadcastTimer := nextBroadcastTimer w;
     tracked := tracked w |}.

Definition set_clock (t : Z) (w : Tracker) : Tracker :=
  {| lastBroadcastRef := lastBroadcastRef w;
     pendingBroadcastTimeoutRef := pendingBroadcastTimeoutRef w;
     hasCleanup := hasCleanup w;
     channelUp := channelUp w;
     clock := t;
     pendingBroadcasts := pendingBroadcasts w;
     nextBroadcastTimer := nextBroadcastTimer w;
     tracked := tracked w |}.

(** A change of the dependencies runs the cleanup of the run in force, then
    the body; unmounting runs the cleanup alone. *)
Definition trackingStep (e : TrackingEvent) (w : Tracker) : option Tracker :=
  match e with
  | Render uid team loc => Some (broadcastEffect uid team loc (runBroadcastCleanup w))
  | Unmount => Some (set_hasCleanup false (runBroadcastCleanup w))
  | SetChannel up => Some (set_channelUp up w)
  | BroadcastTimerFired id =>
      match dueBroadcast id w with
      | Some t =>
          Some (broadcast (pb_userId t) (pb_teamName t)
                  (pb_location t) (cancelBroadcast id w))
      | None => None
      end
  | ClockTick dt => if (0 <=? dt)%Z then Some (set_clock (clock w + dt)%Z w) else None
  end.

Fixpoint trackingRun (es : list TrackingEvent) (w : Tracker) : option Tracker :=
  match es with
  | [] => Some w
  | e :: es' =>
      match trackingStep e w with
      | Some w' => trackingRun es' w'
      | None => None
      end
  end.

(** The tracker after the events that can run, from the first on. *)
Definition trackingPlay (es : list TrackingEvent) (w : Tracker) : Tracker :=
  fold_left (fun w e => match trackingStep e w with
                        | Some w' => w'
                        | None => w
                        end) es w.

Inductive trackingReachable : Tracker -> Prop :=
| tracking_init (t0 : Z) : (0 <= t0)%Z -> trackingReachable (initialTracker t0)
| tracking_step (e : TrackingEvent) (w w' : Tracker) :
    trackingReachable w -> trackingStep e w = Some w' -> trackingReachable w'.

(** Consecutive presences are at least a cooldown apart. *)
Fixpoint spaced (l : list Presence) : Prop :=
  match l with
  | p :: l' =>
      match l' with
      | q :: _ => (lastTick q + cooldown <= lastTick p)%Z
      | [] => True
      end /\ spaced l'
  | [] => True
  end.

Record TrackingInv (w : Tracker) : Prop := {
  tinv_spaced : spaced (tracked w);
  tinv_last : lastBroadcastRef w
             = match tracked w with p :: _ => lastTick p | [] => 0%Z end;
  tinv_clock : (0 <= lastBroadcastRef w <= clock w)%Z;
  tinv_past : forall p, In p (tracked w) -> (lastTick p <= clock w)%Z;
  tinv_ref : hasCleanup w = false -> pendingBroadcastTimeoutRef w = None;
  tinv_pending : forall t, In t (pendingBroadcasts w) ->
      pendingBroadcastTimeoutRef w = Some (pb_id t)
      /\ hasCleanup w = true
      /\ (lastBroadcastRef w + cooldown <= pb_armedAt t + pb_delay t)%Z
}.

Definition isRender (e : TrackingEvent) : bool :=
  match e with Render _ _ _ => true | _ => false end.

(** ** More sample runs *)

Definition accessDenied : GeolocationPositionError :=
  mkError PERMISSION_DENIED "User denied Geolocation".

(** The baseline, then a reading 1 m to the north: smoothed, not published. *)
Definition nudged : World := play [WatchSuccess 1 readingNear] withBaseline.

(** The baseline, then a permission-denied error from the watch. *)
Definition afterDenial : World :=
  play [WatchError 1 accessDenied] withBaseline.

(** Mounted without [navigator.geolocation]. *)
Definition mountedUnsupported : World := effect (initialWorld false true).

(** The permission query has answered [denied]. *)
Definition probeDenied : World :=
  play [QueryResolved status_denied] mountedWithPermissions.

(** The permission query has answered [granted]. *)
Definition probeGranted : World :=
  play [QueryResolved status_granted] mountedWithPermissions.

(** The baseline, then 30 s of silence. *)
Definition silent : World := play [Tick 30000] withBaseline.

Definition readingCrawl : GeolocationCoordinates :=
  mkCoords 50 50 5 (Some 0.1).

Definition sampleCache : Cache :=
  mkCache "Library" (Some 10) (Some 10) (Some "Under the bench"%string) false "OWL".

Definition owlsAt (lat lng : float) : TrackingEvent :=
  Render (Some "u1"%string) (Some "Owls"%string) (Some (mkLocation lat lng)).

(** The clock reads 5 s, the channel is up, nothing was broadcast. *)
Definition trackerUp : Tracker :=
  trackingPlay [SetChannel true] (initialTracker 5000).

(** A first location inside the cooldown: its broadcast is pending. *)
Definition trackerWaiting : Tracker := trackingPlay [owlsAt 10 10] trackerUp.

(** Two broadcasts: one at once, at 20 s, and one deferred to 35 s. *)
Definition twoBroadcasts : Tracker :=
  trackingPlay
    [SetChannel true; owlsAt 10 10; ClockTick 5000; owlsAt 10.001 10;
     ClockTick 10000; BroadcastTimerFired 1]
    (initialTracker 20000).

(** * Lemmas and theorems *)

(** ** IEEE comparisons *)

Lemma SFcompare_swap (a b : spec_float) :
  SFcompare b a = option_map CompOpp (SFcompare a b).
Proof.
  destruct a as [sa|sa| |sa ma ea], b as [sb|sb| |sb mb eb]; simpl; try reflexivity;
    try (destruct sa; try destruct sb; reflexivity).
  destruct sa, sb; simpl; try reflexivity; f_equal;
    rewrite (Z.compare_antisym ea eb); destruct (Z.compare ea eb); simpl;
    try reflexivity;
    replace (Pos.compare_cont Eq mb ma) with (CompOpp (Pos.compare_cont Eq ma mb))
      by apply (Pos.compare_cont_antisym ma mb Eq);
    destruct (Pos.compare_cont Eq ma mb); reflexivity.
Qed.

(** [x < y] excludes [y <= x]; the converse fails on NaN. *)
Lemma ltb_not_leb (x y : float) : (x <? y) = true -> (y <=? x) = false.
Proof.
  rewrite ltb_spec, leb_spec. unfold SFltb, SFleb.
  rewrite (SFcompare_swap (Prim2SF x) (Prim2SF y)).
  destruct (SFcompare (Prim2SF x) (Prim2SF y)) as [[| |]|]; simpl; congruence.
Qed.

Arguments rearmStaleness : simpl never.
Arguments clearFlags : simpl never.
Arguments smooth : simpl never.

Section Facts.
Context `{MathLib}.

Lemma filter_nil_all {A} (f : A -> bool) (l : list A) :
  (forall x, In x l -> f x = false) -> filter f l = [].
Proof.
  induction l as [|a l IH]; simpl; intros Hf; [reflexivity|].
  rewrite (Hf a (or_introl eq_refl)). apply IH. intros x Hx. apply Hf. now right.
Qed.

(** *** rearmStaleness *)

Lemma rearm_frame w :
  state (rearmStaleness w) = state w
  /\ smoothedRef (rearmStaleness w) = smoothedRef w
  /\ lastPushedRef (rearmStaleness w) = lastPushedRef w
  /\ stableCountRef (rearmStaleness w) = stableCountRef w
  /\ watchIdRef (rearmStaleness w) = watchIdRef w
  /\ setStateCalls (rearmStaleness w) = setStateCalls w
  /\ now (rearmStaleness w) = now w
  /\ stalenessTimerRef (rearmStaleness w) = Some (nextTimer w).
Proof. unfold rearmStaleness; destruct (stalenessTimerRef w); simpl; repeat split. Qed.

Lemma rearm_timers w :
  (forall t, In t (timers w) -> stalenessTimerRef w = Some (timer_id t)) ->
  timers (rearmStaleness w) = [mkTimer (nextTimer w) (now w) STALENESS_TIMEOUT_MS].
Proof.
  intros I. unfold rearmStaleness.
  destruct (stalenessTimerRef w) as [id|] eqn:E; simpl.
  - f_equal. apply filter_nil_all. intros t Ht.
    specialize (I t Ht). injection I as ->. now rewrite Pos.eqb_refl.
  - f_equal. destruct (timers w) as [|t l] eqn:Et; [reflexivity|].
    specialize (I t (or_introl eq_refl)). discriminate.
Qed.

(** *** clearFlags *)

Lemma clearFlags_coordinates s : sameCoordinates s (clearFlags s).
Proof. unfold clearFlags, sameCoordinates; destruct (_ || _); simpl; auto. Qed.

Lemma clearFlags_clear s :
  truthy (error s) = isSome (error s) -> flagsClear (clearFlags s).
Proof.
  unfold clearFlags, flagsClear. intros He.
  destruct (loading s) eqn:El; simpl; auto.
  destruct (truthy (error s)) eqn:Et; simpl; auto.
  destruct (stale s) eqn:Es; simpl; auto.
  destruct (permissionState s) eqn:Ep; simpl; auto.
  rewrite El, Es, Ep. destruct (error s); try discriminate. auto.
Qed.

Lemma clearFlags_id s : flagsClear s -> clearFlags s = s.
Proof.
  unfold clearFlags, flagsClear. intros (He & Hl & Hs & Hp).
  now rewrite He, Hl, Hs, Hp.
Qed.

Lemma clearFlags_truthy s :
  truthy (error s) = isSome (error s) ->
  truthy (error (clearFlags s)) = isSome (error (clearFlags s)).
Proof. intros He. destruct (clearFlags_clear s He) as [-> _]. reflexivity. Qed.

(** *** The three ways through handlePosition *)

Lemma handlePosition_discard pos w :
  accuracyRejects pos w = true -> handlePosition pos w = w.
Proof. unfold handlePosition, accuracyRejects. now intros ->. Qed.

Lemma handlePosition_snap pos w :
  accuracyRejects pos w = false -> snaps pos w = true ->
  handlePosition pos w =
  setState clearFlags (rearmStaleness (set_stableCountRef (S (stableCountRef w)) w)).
Proof.
  unfold handlePosition, accuracyRejects, snaps. intros -> Hs.
  apply andb_prop in Hs as [-> Hc]. cbn [stableCountRef set_stableCountRef].
  now rewrite Hc.
Qed.

Lemma handlePosition_accept pos w :
  reachesSmoothing pos w = true ->
  handlePosition pos w =
  smoothAndPublish pos
    (set_stableCountRef (if stationary pos w then S (stableCountRef w) else O) w).
Proof.
  unfold reachesSmoothing, handlePosition, accuracyRejects, snaps. intros Hr.
  apply andb_prop in Hr as [Ha Hs]. apply negb_true_iff in Ha, Hs. rewrite Ha.
  destruct (stationary pos w); [|reflexivity].
  cbn [stableCountRef set_stableCountRef]. rewrite andb_true_l in Hs.
  now rewrite Hs.
Qed.

Lemma gate_cases pos w :
  accuracyRejects pos w = true
  \/ (accuracyRejects pos w = false /\ snaps pos w = true)
  \/ reachesSmoothing pos w = true.
Proof.
  unfold reachesSmoothing.
  destruct (accuracyRejects pos w), (snaps pos w); simpl; auto.
Qed.

(** *** smoothAndPublish *)

Lemma smoothAndPublish_push pos w :
  shouldPush pos w = true ->
  let s := smooth (smoothedRef w) (rawOf pos) EMA_ALPHA in
  smoothAndPublish pos w =
  setState (fun _ => publishedState s)
    (set_lastPushedRef (Some s) (rearmStaleness (set_smoothedRef (Some s) w))).
Proof.
  unfold shouldPush, smoothAndPublish, distanceFromPublished. intros Hp. cbv zeta.
  destruct (rearm_frame (set_smoothedRef
    (Some (smooth (smoothedRef w) (rawOf pos) EMA_ALPHA)) w)) as (_ & _ & -> & _).
  cbn [lastPushedRef set_smoothedRef].
  destruct (lastPushedRef w); now rewrite ?Hp.
Qed.

Lemma smoothAndPublish_hold pos w :
  shouldPush pos w = false ->
  let s := smooth (smoothedRef w) (rawOf pos) EMA_ALPHA in
  smoothAndPublish pos w =
  setState clearFlags (rearmStaleness (set_smoothedRef (Some s) w)).
Proof.
  unfold shouldPush, smoothAndPublish, distanceFromPublished. intros Hp. cbv zeta.
  destruct (rearm_frame (set_smoothedRef
    (Some (smooth (smoothedRef w) (rawOf pos) EMA_ALPHA)) w)) as (_ & _ & -> & _).
  cbn [lastPushedRef set_smoothedRef].
  destruct (lastPushedRef w); [now rewrite Hp | discriminate].
Qed.

(** *** The invariant of reachable worlds *)

Lemma Inv_frame w w' :
  Inv w ->
  state w' = state w -> smoothedRef w' = smoothedRef w ->
  lastPushedRef w' = lastPushedRef w ->
  stalenessTimerRef w' = stalenessTimerRef w ->
  incl (timers w') (timers w) -> (now w <= now w')%Z ->
  Inv w'.
Proof.
  intros [I1 I2 I3 I4] Hs Hm Hp Hr Ht Hn.
  split; rewrite ?Hs, ?Hm, ?Hp, ?Hr; auto.
  intros t Hin. destruct (I4 t (Ht t Hin)) as (? & ? & ?). repeat split; auto. lia.
Qed.

Lemma Inv_setState f w :
  Inv w ->
  isSome (state_latitude (f (state w))) = isSome (state_latitude (state w)) ->
  truthy (error (f (state w))) = isSome (error (f (state w))) ->
  Inv (setState f w).
Proof.
  intros [I1 I2 I3 I4] Hl He. split; cbn; auto. now rewrite Hl.
Qed.

Lemma Inv_rearm w : Inv w -> Inv (rearmStaleness w).
Proof.
  intros I. pose proof (rearm_frame w) as (Hs & Hm & Hp & _ & _ & _ & Hn & Hr).
  pose proof (rearm_timers w (fun t Ht => proj1 (inv_timers w I t Ht))) as Ht.
  destruct I as [I1 I2 I3 I4].
  split; rewrite ?Hs, ?Hm, ?Hp, ?Hr, ?Ht, ?Hn; auto.
  intros t [<-|[]]; cbn. repeat split; auto. lia.
Qed.

Lemma filter_incl {A} (f : A -> bool) (l : list A) : incl (filter f l) l.
Proof. intros x Hx. apply filter_In in Hx. tauto. Qed.

Lemma Inv_clearTimeout id w : Inv w -> Inv (clearTimeout id w).
Proof.
  intros I. apply (Inv_frame w); auto; cbn; try lia. apply filter_incl.
Qed.

Lemma Inv_stopWatching w : Inv w -> Inv (stopWatching w).
Proof.
  intros I. unfold stopWatching. destruct (watchIdRef w); auto.
  apply (Inv_frame w); auto; cbn; try lia. apply incl_refl.
Qed.

Lemma Inv_startWatching w : Inv w -> Inv (startWatching w).
Proof.
  intros I. unfold startWatching. destruct (cancelled w); auto.
  apply (Inv_frame w); auto; cbn; try lia. apply incl_refl.
Qed.

Lemma Inv_smoothAndPublish pos w : Inv w -> Inv (smoothAndPublish pos w).
Proof.
  intros I. set (s := smooth (smoothedRef w) (rawOf pos) EMA_ALPHA).
  assert (I' : Inv (rearmStaleness w)) by now apply Inv_rearm.
  destruct (shouldPush pos w) eqn:Hp.
  - rewrite (smoothAndPublish_push pos w Hp). fold s.
    pose proof (rearm_frame (set_smoothedRef (Some s) w))
      as (Hs & Hm & _ & _ & _ & _ & Hn & Hr).
    pose proof (rearm_timers (set_smoothedRef (Some s) w)
                  (fun t Ht => proj1 (inv_timers w I t Ht))) as Ht.
    split; cbn; rewrite ?Hm, ?Hr, ?Ht, ?Hn; auto.
    intros t [<-|[]]; cbn. repeat split; auto. lia.
  - rewrite (smoothAndPublish_hold pos w Hp). fold s.
    assert (Hl : exists p, lastPushedRef w = Some p).
    { unfold shouldPush in Hp. destruct (lastPushedRef w); [eauto|discriminate]. }
    destruct Hl as [p Hl].
    pose proof (rearm_frame (set_smoothedRef (Some s) w))
      as (Hs & Hm & Hq & _ & _ & _ & Hn & Hr).
    pose proof (rearm_timers (set_smoothedRef (Some s) w)
                  (fun t Ht => proj1 (inv_timers w I t Ht))) as Ht.
    destruct (clearFlags_coordinates (state w)) as (Hc & _).
    split; cbn; rewrite ?Hs, ?Hm, ?Hq, ?Hr, ?Ht, ?Hn; cbn.
    + now rewrite Hl.
    + rewrite Hc. apply (inv_latitude w I).
    + apply clearFlags_truthy, (inv_error w I).
    + intros t [<-|[]]; cbn. repeat split; auto. lia.
Qed.

Lemma Inv_handlePosition pos w : Inv w -> Inv (handlePosition pos w).
Proof.
  intros I. destruct (gate_cases pos w) as [Hd|[[Ha Hs]|Hr]].
  - now rewrite handlePosition_discard.
  - rewrite handlePosition_snap by assumption.
    apply Inv_setState.
    + apply Inv_rearm. apply (Inv_frame w); auto; cbn; try lia. apply incl_refl.
    + destruct (rearm_frame (set_stableCountRef (S (stableCountRef w)) w)) as (-> & _).
      cbn. now destruct (clearFlags_coordinates (state w)) as (-> & _).
    + destruct (rearm_frame (set_stableCountRef (S (stableCountRef w)) w)) as (-> & _).
      cbn. apply clearFlags_truthy, (inv_error w I).
  - rewrite handlePosition_accept by assumption. apply Inv_smoothAndPublish.
    apply (Inv_frame w); auto; cbn; try lia. apply incl_refl.
Qed.

Lemma Inv_handleError e w : Inv w -> Inv (handleError e w).
Proof.
  intros I. unfold handleError. destruct (code e).
  - apply Inv_stopWatching. apply Inv_setState; auto.
  - apply Inv_setState; auto. cbn. now destruct (state_latitude (state w)).
  - apply Inv_setState; auto. cbn. now destruct (state_latitude (state w)).
Qed.

Lemma Inv_initial g p : Inv (effect (initialWorld g p)).
Proof.
  unfold effect, startWatching; destruct g, p; cbn; split; cbn; auto; intros t [].
Qed.

Lemma Inv_step e w w' : Inv w -> step e w = Some w' -> Inv w'.
Proof.
  intros I. assert (If : forall w1, state w1 = state w ->
      smoothedRef w1 = smoothedRef w -> lastPushedRef w1 = lastPushedRef w ->
      stalenessTimerRef w1 = stalenessTimerRef w -> timers w1 = timers w ->
      now w1 = now w -> Inv w1).
  { intros w1 ? ? ? ? Ht Hn. apply (Inv_frame w); auto; try lia.
    rewrite Ht. apply incl_refl. }
  destruct e; cbn.
  - destruct (queryPending w); [|discriminate]. intros [= <-].
    unfold onQueryResolved. cbn [cancelled set_queryPending].
    destruct (cancelled w); [now apply If|].
    destruct result.
    + apply (Inv_frame (startWatching (setPermissionState granted
                                        (set_queryPending false w))));
        auto; try (cbn; lia); try apply incl_refl.
      apply Inv_startWatching, Inv_setState; auto; try apply (inv_error w I).
    + apply Inv_setState; auto.
    + apply (Inv_frame (startWatching (setPermissionState prompt
                                        (set_queryPending false w))));
        auto; try (cbn; lia); try apply incl_refl.
      apply Inv_startWatching, Inv_setState; auto; try apply (inv_error w I).
  - destruct (queryPending w); [|discriminate]. intros [= <-].
    unfold onQueryRejected. cbn [cancelled set_queryPending].
    destruct (cancelled w); cbn [negb]; [now apply If|].
    apply Inv_startWatching. now apply If.
  - destruct (listening w); [|discriminate]. intros [= <-].
    unfold onPermissionChange. destruct result; auto.
    + destruct (watchIdRef w); auto. now apply Inv_startWatching.
    + apply Inv_stopWatching, Inv_setState; auto.
  - destruct (watching id w); [|discriminate]. intros [= <-].
    now apply Inv_handlePosition.
  - destruct (watching id w); [|discriminate]. intros [= <-].
    now apply Inv_handleError.
  - intros [= <-]. unfold recalibrate. destruct (geolocation w); cbn [negb]; auto.
    apply (Inv_frame (setState (fun prev =>
      {| state_latitude := state_latitude prev;
         state_longitude := state_longitude prev;
         state_accuracy := state_accuracy prev;
         error := None; loading := true;
         permissionState := permissionState prev; stale := false |}) w));
      auto; try (cbn; lia); try apply incl_refl.
    apply Inv_setState; auto.
  - destruct (oneShots w); [discriminate|]. intros [= <-].
    apply Inv_handlePosition. now apply If.
  - destruct (oneShots w); [discriminate|]. intros [= <-].
    apply Inv_setState; auto; now apply If.
  - destruct (due id w); [|discriminate]. intros [= <-].
    apply Inv_setState; auto; now apply Inv_clearTimeout.
  - destruct (geolocation w); intros [= <-]; auto.
    unfold cleanup.
    set (w1 := stopWatching (set_cancelled true w)).
    assert (I1 : Inv w1) by (apply Inv_stopWatching; now apply If).
    destruct (stalenessTimerRef w1); auto. now apply Inv_clearTimeout.
  - destruct (0 <=? dt)%Z eqn:Hd; [|discriminate]. intros [= <-].
    apply (Inv_frame w); auto; cbn; try apply incl_refl. lia.
Qed.

Lemma reachable_Inv w : reachable w -> Inv w.
Proof.
  induction 1 as [g p|e w w' _ IH Hs]; [apply Inv_initial|].
  exact (Inv_step e w w' IH Hs).
Qed.

Lemma reachable_run es w w' :
  reachable w -> run es w = Some w' -> reachable w'.
Proof.
  revert w. induction es as [|e es IH]; simpl; intros w R.
  - now intros [= <-].
  - destruct (step e w) as [w1|] eqn:E; [|discriminate].
    apply IH. exact (reachable_step e w w1 R E).
Qed.

Lemma reachable_play es w : reachable w -> reachable (play es w).
Proof.
  revert w. induction es as [|e es IH]; simpl; intros w R; [exact R|].
  destruct (step e w) as [w1|] eqn:E; [|exact R].
  apply IH. exact (reachable_step e w w1 R E).
Qed.

(** *** smoothAndPublish, field by field *)

Lemma smoothAndPublish_frame pos w :
  let w' := smoothAndPublish pos w in
  smoothedRef w' = Some (smooth (smoothedRef w) (rawOf pos) EMA_ALPHA)
  /\ stableCountRef w' = stableCountRef w
  /\ watchIdRef w' = watchIdRef w
  /\ setStateCalls w' = S (setStateCalls w)
  /\ stalenessTimerRef w' = Some (nextTimer w).
Proof.
  cbv zeta. set (s := smooth (smoothedRef w) (rawOf pos) EMA_ALPHA).
  pose proof (rearm_frame (set_smoothedRef (Some s) w))
    as (_ & Hm & _ & Hc & Hw & Hn & _ & Hr).
  destruct (shouldPush pos w) eqn:Hp;
    [rewrite (smoothAndPublish_push pos w Hp)
    |rewrite (smoothAndPublish_hold pos w Hp)];
    fold s; cbn; rewrite ?Hm, ?Hc, ?Hw, ?Hn, ?Hr; cbn; auto.
Qed.

Lemma smoothAndPublish_timers pos w :
  Inv w -> watchdogRearmed w (smoothAndPublish pos w).
Proof.
  intros I. split; [apply smoothAndPublish_frame|].
  set (s := smooth (smoothedRef w) (rawOf pos) EMA_ALPHA).
  pose proof (rearm_timers (set_smoothedRef (Some s) w)
                (fun t Ht => proj1 (inv_timers w I t Ht))) as Ht.
  destruct (shouldPush pos w) eqn:Hp;
    [rewrite (smoothAndPublish_push pos w Hp)
    |rewrite (smoothAndPublish_hold pos w Hp)]; fold s; cbn; now rewrite Ht.
Qed.

Lemma smoothAndPublish_published pos w :
  shouldPush pos w = true ->
  let s := smooth (smoothedRef w) (rawOf pos) EMA_ALPHA in
  state (smoothAndPublish pos w) = publishedState s
  /\ lastPushedRef (smoothAndPublish pos w) = Some s.
Proof.
  intros Hp. cbv zeta. rewrite (smoothAndPublish_push pos w Hp). cbn. auto.
Qed.

Lemma smoothAndPublish_held pos w :
  shouldPush pos w = false ->
  state (smoothAndPublish pos w) = clearFlags (state w)
  /\ lastPushedRef (smoothAndPublish pos w) = lastPushedRef w.
Proof.
  intros Hp. rewrite (smoothAndPublish_hold pos w Hp).
  pose proof (rearm_frame (set_smoothedRef
    (Some (smooth (smoothedRef w) (rawOf pos) EMA_ALPHA)) w)) as (Hs & _ & Hq & _).
  cbn. rewrite Hs, Hq. cbn. auto.
Qed.

(** ** The properties of the specification *)

(** C6.  The smoother returns the raw reading when there is no previous
    position; otherwise each of latitude, longitude and accuracy is
    [alpha * new + (1 - alpha) * previous], with [alpha = 0.15] in the
    pipeline; smoothing (10,10,10) with (20,20,20) gives (11.5,11.5,11.5). *)
Theorem smooth_ema :
  (forall raw alpha, smooth None raw alpha = raw)
  /\ (forall prev raw alpha,
        latitude (smooth (Some prev) raw alpha)
          = alpha * latitude raw + (1 - alpha) * latitude prev
        /\ longitude (smooth (Some prev) raw alpha)
          = alpha * longitude raw + (1 - alpha) * longitude prev
        /\ accuracy (smooth (Some prev) raw alpha)
          = alpha * accuracy raw + (1 - alpha) * accuracy prev)
  /\ EMA_ALPHA = 0.15
  /\ smooth (Some (mkGeoPosition 10 10 10)) (mkGeoPosition 20 20 20) EMA_ALPHA
     = mkGeoPosition 11.5 11.5 11.5.
Proof.
  split; [reflexivity|]. split; [intros; repeat split|].
  split; [reflexivity|]. vm_compute. reflexivity.
Qed.

(** C5.  With a smoothed position in place, a reading whose accuracy radius
    is above 100 m changes nothing at all: refs, public state, timers (no
    watchdog reset).  With none in place, the reading is accepted whatever
    its accuracy: it becomes the smoothed and the published position, is
    exposed, and the watchdog is armed. *)
Theorem accuracy_gate pos w :
  reachable w ->
  (smoothedRef w <> None ->
   (MAX_ACCEPTABLE_ACCURACY <? coords_accuracy pos) = true ->
   handlePosition pos w = w)
  /\ (smoothedRef w = None ->
      smoothedRef (handlePosition pos w) = Some (rawOf pos)
      /\ lastPushedRef (handlePosition pos w) = Some (rawOf pos)
      /\ state (handlePosition pos w) = publishedState (rawOf pos)
      /\ watchdogRearmed w (handlePosition pos w)).
Proof.
  intros R. pose proof (reachable_Inv w R) as I. split.
  - intros Hs Ha. apply handlePosition_discard. unfold accuracyRejects.
    rewrite Ha. destruct (smoothedRef w); [reflexivity|congruence].
  - intros Hs.
    assert (Hst : stationary pos w = false).
    { unfold stationary. rewrite Hs. destruct (coords_speed pos); [|reflexivity].
      apply andb_false_r. }
    assert (Hr : reachesSmoothing pos w = true).
    { unfold reachesSmoothing, accuracyRejects, snaps.
      now rewrite Hs, Hst, andb_false_r. }
    rewrite (handlePosition_accept pos w Hr), Hst.
    set (w0 := set_stableCountRef O w).
    assert (Hp : shouldPush pos w0 = true).
    { unfold shouldPush. cbn. pose proof (inv_pushed w I) as E.
      rewrite Hs in E. now destruct (lastPushedRef w). }
    destruct (smoothAndPublish_frame pos w0) as (Hm & _).
    destruct (smoothAndPublish_published pos w0 Hp) as (Hst' & Hl).
    assert (I0 : Inv w0).
    { apply (Inv_frame w); auto; try (cbn; lia); apply incl_refl. }
    pose proof (smoothAndPublish_timers pos w0 I0) as Ht.
    cbn in Hm, Hst', Hl. rewrite Hs in Hm, Hst', Hl.
    repeat split; auto; apply Ht.
Qed.

Lemma accepted_world pos w :
  Inv w -> reachesSmoothing pos w = true ->
  let w0 := set_stableCountRef
              (if stationary pos w then S (stableCountRef w) else O) w in
  handlePosition pos w = smoothAndPublish pos w0
  /\ Inv w0 /\ shouldPush pos w0 = shouldPush pos w.
Proof.
  intros I Hr. cbv zeta. split; [now apply handlePosition_accept|]. split.
  - apply (Inv_frame w); auto; try (cbn; lia); apply incl_refl.
  - reflexivity.
Qed.

(** C3.  A reading that reaches the movement-threshold gate.  If nothing is
    published yet, or the smoothed position is at least 5 m from the
    published one, the smoothed position is published and exposed by one
    [setState], with error, loading and stale cleared and the permission
    granted.  If it is less than 5 m away, the exposed coordinates and the
    published position stay, and error, loading and stale are cleared. *)
Theorem movement_threshold_gate pos w :
  reachable w -> reachesSmoothing pos w = true ->
  let s := smooth (smoothedRef w) (rawOf pos) EMA_ALPHA in
  let w' := handlePosition pos w in
  ((lastPushedRef w = None
    \/ exists p, lastPushedRef w = Some p
         /\ (MIN_MOVEMENT_THRESHOLD <=? distanceFromPublished p s) = true) ->
   state w' = publishedState s
   /\ lastPushedRef w' = Some s
   /\ setStateCalls w' = S (setStateCalls w))
  /\ (forall p, lastPushedRef w = Some p ->
      (distanceFromPublished p s <? MIN_MOVEMENT_THRESHOLD) = true ->
      sameCoordinates (state w) (state w')
      /\ flagsClear (state w')
      /\ lastPushedRef w' = Some p).
Proof.
  intros R Hr. pose proof (reachable_Inv w R) as I. cbv zeta.
  destruct (accepted_world pos w I Hr) as (-> & I0 & Hsp).
  set (w0 := set_stableCountRef _ w) in *.
  destruct (smoothAndPublish_frame pos w0) as (_ & _ & _ & Hn & _).
  split.
  - intros Hc.
    assert (Hp : shouldPush pos w0 = true).
    { rewrite Hsp. unfold shouldPush.
      destruct Hc as [->|(p & -> & Hd)]; [reflexivity|exact Hd]. }
    destruct (smoothAndPublish_published pos w0 Hp) as (Hst & Hl).
    repeat split; assumption.
  - intros p Hl Hd.
    assert (Hp : shouldPush pos w0 = false).
    { rewrite Hsp. unfold shouldPush. rewrite Hl. now apply ltb_not_leb. }
    destruct (smoothAndPublish_held pos w0 Hp) as (Hst & Hl').
    rewrite Hst, Hl'. cbn. repeat split; auto.
    + apply clearFlags_coordinates.
    + apply clearFlags_coordinates.
    + apply clearFlags_coordinates.
    + apply clearFlags_clear, (inv_error w I).
    + apply clearFlags_clear, (inv_error w I).
    + apply clearFlags_clear, (inv_error w I).
    + apply clearFlags_clear, (inv_error w I).
Qed.


Lemma accepted_flagsClear pos w :
  Inv w -> reachesSmoothing pos w = true ->
  flagsClear (state (handlePosition pos w))
  /\ exists p, lastPushedRef (handlePosition pos w) = Some p.
Proof.
  intros I Hr. destruct (accepted_world pos w I Hr) as (-> & I0 & _).
  set (w0 := set_stableCountRef _ w) in *.
  destruct (shouldPush pos w0) eqn:Hp.
  - destruct (smoothAndPublish_published pos w0 Hp) as (-> & ->).
    split; [repeat split|eauto].
  - destruct (smoothAndPublish_held pos w0 Hp) as (-> & ->). split.
    + apply clearFlags_clear, (inv_error w0 I0).
    + unfold shouldPush in Hp. destruct (lastPushedRef w0); [eauto|discriminate].
Qed.

(** C1, amended.  Feeding an accepted reading a second time never changes
    error, loading, stale or the permission state: they are clear after the
    first pass and after the second.  The second pass takes one of three
    branches, and each branch fixes the outcome.  Discarded by the accuracy
    gate (the first pass was the very first reading, of accuracy above
    100 m): nothing changes at all, the watchdog included.  Frozen by the
    snap branch: only the stable count moves, by one, and the watchdog is
    rearmed.  Smoothed once more: the smoothed position takes one more EMA
    step, the stable count is incremented or reset, the watchdog is rearmed,
    and the movement gate decides: when the new smoothed position is at
    least 5 m from the published one it is published and exposed; when that
    test fails the published position and the public state stay. *)
Theorem refeed_accepted pos w :
  reachable w -> reachesSmoothing pos w = true ->
  let w1 := handlePosition pos w in
  let w2 := handlePosition pos w1 in
  let s2 := smooth (smoothedRef w1) (rawOf pos) EMA_ALPHA in
  flagsClear (state w1) /\ flagsClear (state w2)
  /\ (accuracyRejects pos w1 = true
      \/ (accuracyRejects pos w1 = false /\ snaps pos w1 = true)
      \/ reachesSmoothing pos w1 = true)
  /\ (accuracyRejects pos w1 = true ->
      w2 = w1
      /\ smoothedRef w = None
      /\ (MAX_ACCEPTABLE_ACCURACY <? coords_accuracy pos) = true)
  /\ (accuracyRejects pos w1 = false -> snaps pos w1 = true ->
      smoothedRef w2 = smoothedRef w1
      /\ lastPushedRef w2 = lastPushedRef w1
      /\ state w2 = state w1
      /\ stableCountRef w2 = S (stableCountRef w1)
      /\ watchdogRearmed w1 w2)
  /\ (reachesSmoothing pos w1 = true ->
      smoothedRef w2 = Some s2
      /\ stableCountRef w2
         = (if stationary pos w1 then S (stableCountRef w1) else O)
      /\ watchdogRearmed w1 w2
      /\ exists p, lastPushedRef w1 = Some p
           /\ ((MIN_MOVEMENT_THRESHOLD <=? distanceFromPublished p s2) = true ->
               lastPushedRef w2 = Some s2
               /\ state w2 = publishedState s2)
           /\ ((MIN_MOVEMENT_THRESHOLD <=? distanceFromPublished p s2) = false ->
               lastPushedRef w2 = Some p
               /\ state w2 = state w1)).
Proof.
  intros R Hr. pose proof (reachable_Inv w R) as I. cbv zeta.
  destruct (accepted_flagsClear pos w I Hr) as (Hf1 & p & Hl1).
  set (w1 := handlePosition pos w) in *.
  assert (I1 : Inv w1) by now apply Inv_handlePosition.
  split; [exact Hf1|].
  assert (Hf2 : flagsClear (state (handlePosition pos w1))).
  { destruct (gate_cases pos w1) as [Hd|[[Ha Hs]|Hr1]].
    - now rewrite (handlePosition_discard pos w1 Hd).
    - rewrite (handlePosition_snap pos w1 Ha Hs).
      pose proof (rearm_frame (set_stableCountRef (S (stableCountRef w1)) w1))
        as (Hst & _).
      cbn. rewrite Hst. cbn. now rewrite clearFlags_id.
    - apply (accepted_flagsClear pos w1 I1 Hr1). }
  split; [exact Hf2|]. split; [apply gate_cases|]. split; [|split].
  - intros Hd. split; [apply (handlePosition_discard pos w1 Hd)|].
    unfold accuracyRejects in Hd. apply andb_prop in Hd as [Hacc _].
    split; [|exact Hacc].
    unfold reachesSmoothing, accuracyRejects in Hr. rewrite Hacc in Hr.
    destruct (smoothedRef w); [discriminate Hr|reflexivity].
  - intros Ha Hs. rewrite (handlePosition_snap pos w1 Ha Hs).
    set (w0 := set_stableCountRef (S (stableCountRef w1)) w1).
    pose proof (rearm_frame w0) as (Hst & Hm & Hp & Hk & _ & _ & _ & Hrf).
    assert (Ht : timers (rearmStaleness w0)
                 = [mkTimer (nextTimer w1) (now w1) STALENESS_TIMEOUT_MS]).
    { apply (rearm_timers w0). intros t Hin. apply (inv_timers w1 I1 t Hin). }
    cbn. rewrite Hst, Hm, Hp, Hk. cbn.
    repeat split; auto. now apply clearFlags_id.
  - intros Hr1.
    destruct (accepted_world pos w1 I1 Hr1) as (-> & I0 & Hsp).
    set (w0 := set_stableCountRef _ w1) in *.
    destruct (smoothAndPublish_frame pos w0) as (Hm & Hk & _).
    split; [exact Hm|]. split; [exact Hk|].
    split; [exact (smoothAndPublish_timers pos w0 I0)|].
    exists p. split; [exact Hl1|].
    unfold shouldPush in Hsp. rewrite Hl1 in Hsp. split.
    + intros Hfar. rewrite <- Hsp in Hfar.
      destruct (smoothAndPublish_published pos w0 Hfar) as (Hst & Hl).
      split; [exact Hl|exact Hst].
    + intros Hnear. rewrite <- Hsp in Hnear.
      destruct (smoothAndPublish_held pos w0 Hnear) as (Hst & Hl).
      split; [now rewrite Hl|]. rewrite Hst. now apply clearFlags_id.
Qed.

(** C8.  A transient error (position unavailable, timeout) leaves the
    permission state and the subscription as they are.  A message is shown
    only while no position has been published (latitude still null, which
    in a reachable world is the same as no published position); once a
    position exists the public error is null. *)
Theorem transient_error_policy e w :
  reachable w -> code e <> PERMISSION_DENIED ->
  let w' := handleError e w in
  permissionState (state w') = permissionState (state w)
  /\ watchIdRef w' = watchIdRef w
  /\ watches w' = watches w
  /\ (lastPushedRef w = None <-> state_latitude (state w) = None)
  /\ (state_latitude (state w) = None -> error (state w') = Some ACQUIRING)
  /\ (state_latitude (state w) <> None -> error (state w') = None)
  /\ (forall msg, error (state w') = Some msg ->
      state_latitude (state w) = None).
Proof.
  intros R Hc. pose proof (inv_latitude w (reachable_Inv w R)) as Il. cbv zeta.
  assert (E : handleError e w = setState (fun prev =>
        {| state_latitude := state_latitude prev;
           state_longitude := state_longitude prev;
           state_accuracy := state_accuracy prev;
           error := match state_latitude prev with
                    | None => Some ACQUIRING
                    | Some _ => None
                    end;
           loading := negb (isSome (state_latitude prev));
           permissionState := permissionState prev;
           stale := stale prev |}) w).
  { unfold handleError. destruct (code e); [congruence|reflexivity|reflexivity]. }
  rewrite E. cbn. repeat split; try tauto.
  - intros Hp. rewrite Hp in Il. now destruct (state_latitude (state w)).
  - intros Hp. rewrite Hp in Il. now destruct (lastPushedRef w).
  - now intros ->.
  - destruct (state_latitude (state w)); congruence.
  - destruct (state_latitude (state w)); congruence.
Qed.

(** C10.  A transient error arriving while a position is exposed sets the
    public error to null and loading to false, whatever error was shown
    before (the watchdog's message included). *)
Theorem transient_blip_clears_error e w :
  code e <> PERMISSION_DENIED -> state_latitude (state w) <> None ->
  error (state (handleError e w)) = None
  /\ loading (state (handleError e w)) = false.
Proof.
  intros Hc Hl. unfold handleError.
  destruct (code e); [congruence| |]; cbn;
    destruct (state_latitude (state w)); auto; congruence.
Qed.

Lemma due_inv id w :
  due id w = true ->
  exists t, In t (timers w) /\ timer_id t = id
            /\ (timer_armedAt t + timer_delay t <= now w)%Z.
Proof.
  unfold due. intros Hd. apply existsb_exists in Hd as (t & Hin & Ht).
  apply andb_prop in Ht as [Hi Hz]. apply Pos.eqb_eq in Hi. apply Z.leb_le in Hz.
  eauto.
Qed.

(** C9.  The watchdog's timeout can fire only once 30 000 ms have passed
    since it was armed, that is since the last accepted reading, which
    replaced every earlier timeout.  Firing sets stale to true and a
    non-empty error message, and leaves latitude, longitude, accuracy, the
    permission state and loading as they were. *)
Theorem watchdog_fires id w w' :
  reachable w -> step (TimerFired id) w = Some w' ->
  stale (state w') = true
  /\ error (state w') = Some SIGNAL_LOST /\ SIGNAL_LOST <> EmptyString
  /\ sameCoordinates (state w) (state w')
  /\ permissionState (state w') = permissionState (state w)
  /\ loading (state w') = loading (state w)
  /\ stalenessTimerRef w = Some id
  /\ exists t, In t (timers w) /\ timer_id t = id
       /\ timer_delay t = 30000%Z
       /\ (timer_armedAt t + 30000 <= now w)%Z.
Proof.
  intros R. pose proof (reachable_Inv w R) as I. cbn.
  destruct (due id w) eqn:Hd; [|discriminate]. intros [= <-].
  apply due_inv in Hd as (t & Hin & Hid & Hz).
  destruct (inv_timers w I t Hin) as (Hr & Hdl & _).
  cbn. repeat split; auto; try discriminate.
  - now rewrite Hr, Hid.
  - exists t. rewrite Hdl in Hz. auto.
Qed.

(** *** The watchdog needs 30 s of silence *)

Lemma handlePosition_timers pos w :
  Inv w ->
  now (handlePosition pos w) = now w
  /\ (accuracyRejects pos w = true
      \/ watchdogRearmed w (handlePosition pos w)).
Proof.
  intros I. destruct (gate_cases pos w) as [Hd|[[Ha Hs]|Hr]].
  - rewrite (handlePosition_discard pos w Hd). auto.
  - rewrite (handlePosition_snap pos w Ha Hs).
    set (w0 := set_stableCountRef (S (stableCountRef w)) w).
    pose proof (rearm_frame w0) as (_ & _ & _ & _ & _ & _ & Hn & Hr).
    assert (Ht : timers (rearmStaleness w0)
                 = [mkTimer (nextTimer w) (now w) STALENESS_TIMEOUT_MS]).
    { apply (rearm_timers w0). intros t Hin. apply (inv_timers w I t Hin). }
    cbn. rewrite Hn. split; [reflexivity|]. right. split; cbn; assumption.
  - destruct (accepted_world pos w I Hr) as (-> & I0 & _).
    set (w0 := set_stableCountRef _ w) in *.
    pose proof (smoothAndPublish_timers pos w0 I0) as Ht. split; [|now right].
    unfold smoothAndPublish.
    set (w1 := set_smoothedRef _ w0).
    pose proof (rearm_frame w1) as (_ & _ & _ & _ & _ & _ & Hn & _).
    destruct (match lastPushedRef (rearmStaleness w1) with
              | Some _ => _ | None => _ end); cbn; now rewrite Hn.
Qed.

Lemma stopWatching_timers w :
  timers (stopWatching w) = timers w /\ now (stopWatching w) = now w
  /\ stalenessTimerRef (stopWatching w) = stalenessTimerRef w.
Proof. unfold stopWatching. destruct (watchIdRef w); cbn; auto. Qed.

Lemma startWatching_timers w :
  timers (startWatching w) = timers w /\ now (startWatching w) = now w.
Proof. unfold startWatching. destruct (cancelled w); cbn; auto. Qed.

Lemma armedSince_frame T w w' :
  armedSince T w -> (now w <= now w')%Z -> incl (timers w') (timers w) ->
  armedSince T w'.
Proof.
  intros [Hn Ht] Hle Hincl. split; [lia|]. intros t Hin. apply Ht, Hincl, Hin.
Qed.

Lemma armedSince_handlePosition T pos w :
  Inv w -> armedSince T w -> armedSince T (handlePosition pos w).
Proof.
  intros I A. destruct (handlePosition_timers pos w I) as (Hn & [Hd|[_ Ht]]).
  - now rewrite (handlePosition_discard pos w Hd).
  - destruct A as [An At]. split; [lia|]. rewrite Ht.
    intros t [<-|[]]. exact An.
Qed.

Ltac frame_timers :=
  repeat match goal with
         | |- context [startWatching ?x] =>
             let Ht := fresh in let Hn := fresh in
             pose proof (startWatching_timers x) as (Ht & Hn);
             rewrite ?Ht, ?Hn; clear Ht Hn
         | |- context [stopWatching ?x] =>
             let Ht := fresh in let Hn := fresh in
             pose proof (stopWatching_timers x) as (Ht & Hn & _);
             rewrite ?Ht, ?Hn; clear Ht Hn
         end;
  cbn; try lia; try apply incl_refl; try apply filter_incl.

Lemma armedSince_step T e w w' :
  Inv w -> armedSince T w -> step e w = Some w' -> armedSince T w'.
Proof.
  intros I A. destruct e; cbn.
  - destruct (queryPending w); [|discriminate]. intros [= <-].
    unfold onQueryResolved. cbn [cancelled set_queryPending].
    destruct (cancelled w); [exact A|].
    destruct result; try exact A;
      (apply (armedSince_frame T w); [exact A| |]; cbn; frame_timers).
  - destruct (queryPending w); [|discriminate]. intros [= <-].
    unfold onQueryRejected. cbn [cancelled set_queryPending].
    destruct (cancelled w); cbn [negb]; [exact A|].
    apply (armedSince_frame T w); [exact A| |]; frame_timers.
  - destruct (listening w); [|discriminate]. intros [= <-].
    unfold onPermissionChange. destruct result; try exact A.
    + destruct (watchIdRef w); [exact A|].
      apply (armedSince_frame T w); [exact A| |]; frame_timers.
    + apply (armedSince_frame T w); [exact A| |]; frame_timers.
  - destruct (watching id w); [|discriminate]. intros [= <-].
    now apply armedSince_handlePosition.
  - destruct (watching id w); [|discriminate]. intros [= <-].
    unfold handleError. destruct (code err); try exact A.
    apply (armedSince_frame T w); [exact A| |]; frame_timers.
  - intros [= <-]. unfold recalibrate. destruct (geolocation w); exact A.
  - destruct (oneShots w); [discriminate|]. intros [= <-].
    apply armedSince_handlePosition; [|exact A].
    apply (Inv_frame w); auto; try (cbn; lia); apply incl_refl.
  - destruct (oneShots w); [discriminate|]. intros [= <-]. exact A.
  - destruct (due id w); [|discriminate]. intros [= <-].
    apply (armedSince_frame T w); [exact A| |]; frame_timers.
  - destruct (geolocation w); intros [= <-]; [|exact A].
    unfold cleanup.
    pose proof (stopWatching_timers (set_cancelled true w)) as (Ht & Hn & Hr).
    rewrite Hr. cbn.
    destruct (stalenessTimerRef w);
      (apply (armedSince_frame T w); [exact A| |]); cbn; rewrite ?Hn, ?Ht;
      cbn; try lia; try apply incl_refl; apply filter_incl.
  - destruct (0 <=? dt)%Z eqn:Hd; [|discriminate]. intros [= <-].
    apply Z.leb_le in Hd.
    apply (armedSince_frame T w); [exact A|cbn; lia|apply incl_refl].
Qed.

Lemma armedSince_run T es w w' :
  Inv w -> armedSince T w -> run es w = Some w' -> Inv w' /\ armedSince T w'.
Proof.
  revert w. induction es as [|e es IH]; simpl; intros w I A.
  - intros [= <-]. auto.
  - destruct (step e w) as [w1|] eqn:E; [|discriminate].
    apply IH; [exact (Inv_step e w w1 I E)|exact (armedSince_step T e w w1 I A E)].
Qed.

(** X8.  Whenever the watchdog's timeout runs, at least 30 000 ms have
    passed since every earlier reading that rearmed it (one that was not
    discarded by the accuracy gate). *)
Theorem watchdog_needs_silence pos w0 es w id w' :
  reachable w0 -> accuracyRejects pos w0 = false ->
  run es (handlePosition pos w0) = Some w ->
  step (TimerFired id) w = Some w' ->
  (now w0 + 30000 <= now w)%Z.
Proof.
  intros R Ha Hrun Hfire. pose proof (reachable_Inv w0 R) as I0.
  assert (I1 : Inv (handlePosition pos w0)) by now apply Inv_handlePosition.
  assert (A1 : armedSince (now w0) (handlePosition pos w0)).
  { destruct (handlePosition_timers pos w0 I0) as (Hn & [Hd|[_ Ht]]);
      [congruence|]. split; [lia|]. rewrite Ht. intros t [<-|[]]. cbn. lia. }
  destruct (armedSince_run _ es _ w I1 A1 Hrun) as (I & [_ At]).
  cbn in Hfire. destruct (due id w) eqn:Hd; [|discriminate].
  apply due_inv in Hd as (t & Hin & _ & Hz).
  destruct (inv_timers w I t Hin) as (_ & Hdl & _).
  specialize (At t Hin). rewrite Hdl in Hz. unfold STALENESS_TIMEOUT_MS in Hz. lia.
Qed.

(** *** The controller *)

Lemma clearFlags_granted s : permissionState (clearFlags s) = granted.
Proof.
  unfold clearFlags. destruct (loading s); [reflexivity|].
  destruct (truthy (error s)); [reflexivity|].
  destruct (stale s); [reflexivity|].
  destruct (permissionState s) eqn:E; cbn; auto.
Qed.

Lemma handlePosition_control pos w :
  let w' := handlePosition pos w in
  watchIdRef w' = watchIdRef w /\ watches w' = watches w
  /\ queryPending w' = queryPending w /\ listening w' = listening w
  /\ cancelled w' = cancelled w /\ oneShots w' = oneShots w
  /\ (w' = w \/ permissionState (state w') = granted).
Proof.
  cbv zeta. unfold handlePosition, smoothAndPublish, rearmStaleness.
  destruct (_ && _); [repeat split; auto|].
  destruct (stationary pos w); cbn [stableCountRef set_stableCountRef];
    [destruct (_ <=? _)%nat|];
    cbn [stalenessTimerRef set_stableCountRef set_smoothedRef];
    destruct (stalenessTimerRef w); cbn;
    repeat match goal with
           | |- context [if ?b then _ else _] => destruct b; cbn
           | |- context [match lastPushedRef w with _ => _ end] =>
               destruct (lastPushedRef w); cbn
           end;
    repeat split; auto using clearFlags_granted.
Qed.

Lemma stopWatching_control w :
  (forall id, In id (watches w) -> watchIdRef w = Some id) ->
  watchIdRef (stopWatching w) = None /\ watches (stopWatching w) = []
  /\ state (stopWatching w) = state w
  /\ queryPending (stopWatching w) = queryPending w
  /\ listening (stopWatching w) = listening w
  /\ cancelled (stopWatching w) = cancelled w.
Proof.
  intros Hw. unfold stopWatching. destruct (watchIdRef w) as [id|] eqn:E; cbn.
  - repeat split; auto. apply filter_nil_all. intros i Hi.
    specialize (Hw i Hi). injection Hw as ->. now rewrite Pos.eqb_refl.
  - repeat split; auto. destruct (watches w) as [|i l]; [reflexivity|].
    specialize (Hw i (or_introl eq_refl)). discriminate.
Qed.

Lemma Ctl_frame w w' :
  Ctl w ->
  watches w' = watches w -> watchIdRef w' = watchIdRef w ->
  (queryPending w' = true ->
   queryPending w = true /\ listening w' = listening w
   /\ (permissionState (state w') = permissionState (state w)
       \/ permissionState (state w') <> denied)) ->
  Ctl w'.
Proof.
  intros [Cw Cq] Hw Hr Hq. split; rewrite ?Hw, ?Hr; auto.
  intros Hq'. destruct (Hq Hq') as (Hq0 & -> & Hp).
  destruct (Cq Hq0) as (? & ? & ?). repeat split; auto.
  destruct Hp as [->|]; auto.
Qed.

Lemma Ctl_no_watches w : Ctl w -> watchIdRef w = None -> watches w = [].
Proof.
  intros [Cw _] Hr. destruct (watches w) as [|i l]; [reflexivity|].
  specialize (Cw i (or_introl eq_refl)). congruence.
Qed.

Lemma Ctl_startWatching w :
  Ctl w -> watchIdRef w = None -> queryPending w = false ->
  Ctl (startWatching w).
Proof.
  intros C Hr Hq. pose proof (Ctl_no_watches w C Hr) as Hw.
  unfold startWatching. destruct (cancelled w); [exact C|].
  split; cbn; rewrite ?Hw, ?Hq; try discriminate.
  intros id [<-|[]]. reflexivity.
Qed.

Lemma Ctl_stopWatching w : Ctl w -> Ctl (stopWatching w).
Proof.
  intros C.
  destruct (stopWatching_control w (ctl_watches w C))
    as (Hr & Hw & Hs & Hq & Hl & _).
  split; rewrite ?Hr, ?Hw, ?Hs, ?Hq, ?Hl.
  - intros id [].
  - intros Hq'. destruct (ctl_query w C Hq') as (_ & ? & ?). auto.
Qed.

Ltac ctl_side :=
  cbn; try reflexivity; try assumption;
  try (intros Hx;
       (discriminate Hx
        || (split; [assumption|split; [reflexivity|left; reflexivity]]))).

Lemma Ctl_handlePosition pos w : Ctl w -> Ctl (handlePosition pos w).
Proof.
  intros C.
  destruct (handlePosition_control pos w) as (Hr & Hw & Hq & Hl & _ & _ & Hp).
  apply (Ctl_frame w); auto.
  rewrite Hq, Hl. intros Hq'. repeat split; auto.
  destruct Hp as [-> | Hg]; [now left|right; congruence].
Qed.

Lemma Ctl_handleError e w : Ctl w -> queryPending w = false ->
  Ctl (handleError e w).
Proof.
  intros C Hq. unfold handleError. destruct (code e).
  - apply Ctl_stopWatching. destruct C as [Cw _].
    split; cbn; auto. rewrite Hq. discriminate.
  - apply (Ctl_frame w); ctl_side.
  - apply (Ctl_frame w); ctl_side.
Qed.

Lemma Ctl_initial g p : Ctl (effect (initialWorld g p)).
Proof.
  unfold effect, startWatching. destruct g, p; cbn; split; cbn; intros;
    repeat match goal with
           | Hx : _ \/ _ |- _ => destruct Hx
           | Hx : False |- _ => destruct Hx
           end; subst; try discriminate; repeat split; auto; discriminate.
Qed.

Lemma watching_In id w : watching id w = true -> In id (watches w).
Proof.
  unfold watching. intros Hx. apply existsb_exists in Hx as (i & Hi & E).
  apply Pos.eqb_eq in E. now subst.
Qed.

Lemma Ctl_watching id w : Ctl w -> watching id w = true ->
  watchIdRef w = Some id /\ queryPending w = false.
Proof.
  intros C Hx. apply watching_In in Hx.
  pose proof (ctl_watches w C id Hx) as Hr. split; [exact Hr|].
  destruct (queryPending w) eqn:Hq; [|reflexivity].
  destruct (ctl_query w C Hq) as (Hn & _). congruence.
Qed.

Lemma Ctl_listening w : Ctl w -> listening w = true -> queryPending w = false.
Proof.
  intros C Hl. destruct (queryPending w) eqn:Hq; [|reflexivity].
  destruct (ctl_query w C Hq) as (_ & Hf & _). congruence.
Qed.

Lemma startWatching_frame w :
  queryPending (startWatching w) = queryPending w
  /\ listening (startWatching w) = listening w
  /\ state (startWatching w) = state w.
Proof. unfold startWatching. destruct (cancelled w); cbn; auto. Qed.

Lemma Ctl_step e w w' : Ctl w -> step e w = Some w' -> Ctl w'.
Proof.
  intros C. destruct e; cbn.
  - destruct (queryPending w) eqn:Hq; [|discriminate]. intros [= <-].
    destruct (ctl_query w C Hq) as (Hr & Hl & Hp).
    assert (C0 : Ctl (set_queryPending false w))
      by (apply (Ctl_frame w); ctl_side).
    unfold onQueryResolved. cbn [cancelled set_queryPending].
    destruct (cancelled w) eqn:Hc; [exact C0|].
    assert (Cs : forall p, p <> denied ->
              Ctl (set_listening true (startWatching
                     (setPermissionState p (set_queryPending false w))))).
    { intros p Hne.
      set (w1 := setPermissionState p (set_queryPending false w)).
      assert (C1 : Ctl w1)
        by (apply (Ctl_frame (set_queryPending false w)); ctl_side).
      apply (Ctl_frame (startWatching w1)); ctl_side.
      - now apply Ctl_startWatching.
      - destruct (startWatching_frame w1) as (-> & _). discriminate. }
    destruct result; cbn [asPermissionState].
    + apply Cs. discriminate.
    + apply (Ctl_frame (set_queryPending false w)); ctl_side.
    + apply Cs. discriminate.
  - destruct (queryPending w) eqn:Hq; [|discriminate]. intros [= <-].
    destruct (ctl_query w C Hq) as (Hr & Hl & Hp).
    assert (C0 : Ctl (set_queryPending false w))
      by (apply (Ctl_frame w); ctl_side).
    unfold onQueryRejected. cbn [cancelled set_queryPending].
    destruct (cancelled w); cbn [negb]; [exact C0|].
    now apply Ctl_startWatching.
  - destruct (listening w) eqn:Hl; [|discriminate]. intros [= <-].
    pose proof (Ctl_listening w C Hl) as Hq.
    unfold onPermissionChange. destruct result; auto.
    + destruct (watchIdRef w) eqn:Hr; auto. now apply Ctl_startWatching.
    + apply Ctl_stopWatching. destruct C as [Cw _].
      split; cbn; auto. rewrite Hq. discriminate.
  - destruct (watching id w); [|discriminate]. intros [= <-].
    now apply Ctl_handlePosition.
  - destruct (watching id w) eqn:Hx; [|discriminate]. intros [= <-].
    apply Ctl_handleError; auto. now apply (Ctl_watching id).
  - intros [= <-]. unfold recalibrate. destruct (geolocation w); cbn [negb]; auto.
    apply (Ctl_frame w); ctl_side.
  - destruct (oneShots w); [discriminate|]. intros [= <-].
    apply Ctl_handlePosition. apply (Ctl_frame w); ctl_side.
  - destruct (oneShots w); [discriminate|]. intros [= <-].
    apply (Ctl_frame w); ctl_side.
  - destruct (due id w); [|discriminate]. intros [= <-].
    apply (Ctl_frame w); ctl_side.
  - destruct (geolocation w); intros [= <-]; auto.
    unfold cleanup.
    assert (C1 : Ctl (stopWatching (set_cancelled true w))).
    { apply Ctl_stopWatching. apply (Ctl_frame w); ctl_side. }
    destruct (stalenessTimerRef _); auto.
    apply (Ctl_frame (stopWatching (set_cancelled true w))); ctl_side.
  - destruct (0 <=? dt)%Z; [|discriminate]. intros [= <-].
    apply (Ctl_frame w); ctl_side.
Qed.

Lemma reachable_Ctl w : reachable w -> Ctl w.
Proof.
  induction 1 as [g p|e w w' _ IH Hs]; [apply Ctl_initial|].
  exact (Ctl_step e w w' IH Hs).
Qed.

(** X13.  Every step keeps "denied implies no watch handle", except the
    listener seeing the permission granted again. *)
Theorem denied_not_watching_step e w w' :
  reachable w -> deniedNotWatching w ->
  e <> PermissionChange status_granted ->
  step e w = Some w' -> deniedNotWatching w'.
Proof.
  intros R D He. pose proof (reachable_Ctl w R) as C.
  unfold deniedNotWatching in *. destruct e; cbn.
  - destruct (queryPending w) eqn:Hq; [|discriminate]. intros [= <-].
    destruct (ctl_query w C Hq) as (Hr & Hl & Hp).
    unfold onQueryResolved. cbn [cancelled set_queryPending].
    destruct (cancelled w) eqn:Hc; [exact D|].
    destruct result; unfold startWatching; cbn; rewrite ?Hc; cbn;
      intros Hd; try discriminate Hd; exact Hr.
  - destruct (queryPending w) eqn:Hq; [|discriminate]. intros [= <-].
    destruct (ctl_query w C Hq) as (Hr & Hl & Hp).
    unfold onQueryRejected. cbn [cancelled set_queryPending].
    destruct (cancelled w) eqn:Hc; cbn [negb]; [exact D|].
    unfold startWatching; cbn; rewrite Hc; cbn. intros Hd. contradiction.
  - destruct (listening w); [|discriminate]. intros [= <-].
    unfold onPermissionChange. destruct result; auto; [congruence|].
    intros _. apply stopWatching_control. cbn. apply (ctl_watches w C).
  - destruct (watching id w); [|discriminate]. intros [= <-].
    destruct (handlePosition_control pos w) as (-> & _ & _ & _ & _ & _ & Hp).
    destruct Hp as [-> | ->]; [exact D|discriminate].
  - destruct (watching id w); [|discriminate]. intros [= <-].
    unfold handleError. destruct (code err); cbn; auto.
    intros _. apply stopWatching_control. cbn. apply (ctl_watches w C).
  - intros [= <-]. unfold recalibrate. destruct (geolocation w); cbn; auto.
  - destruct (oneShots w); [discriminate|]. intros [= <-].
    destruct (handlePosition_control pos (set_oneShots n w))
      as (-> & _ & _ & _ & _ & _ & Hp).
    destruct Hp as [-> | ->]; [exact D|discriminate].
  - destruct (oneShots w); [discriminate|]. intros [= <-]. exact D.
  - destruct (due id w); [|discriminate]. intros [= <-]. exact D.
  - destruct (geolocation w); intros [= <-]; auto. intros _.
    unfold cleanup.
    destruct (stopWatching_control (set_cancelled true w) (ctl_watches w C))
      as (Hr & _).
    destruct (stalenessTimerRef _); cbn; auto.
  - destruct (0 <=? dt)%Z; [|discriminate]. intros [= <-]. exact D.
Qed.

(** X17.  Cleanup sets the cancelled flag, clears the watch in the browser
    and in [watchIdRef], clears the pending staleness timeout, and leaves
    the public state as it was. *)
Theorem cleanup_cancels w :
  reachable w ->
  cancelled (cleanup w) = true
  /\ watchIdRef (cleanup w) = None /\ watches (cleanup w) = []
  /\ timers (cleanup w) = []
  /\ state (cleanup w) = state w.
Proof.
  intros R. pose proof (reachable_Ctl w R) as C.
  pose proof (reachable_Inv w R) as I. unfold cleanup.
  destruct (stopWatching_control (set_cancelled true w) (ctl_watches w C))
    as (Hr & Hw & Hs & _ & _ & Hc).
  assert (Ht : timers (stopWatching (set_cancelled true w)) = timers w).
  { unfold stopWatching. now destruct (watchIdRef (set_cancelled true w)). }
  assert (Hm : stalenessTimerRef (stopWatching (set_cancelled true w))
               = stalenessTimerRef w).
  { unfold stopWatching. now destruct (watchIdRef (set_cancelled true w)). }
  rewrite Hm. destruct (stalenessTimerRef w) as [id|] eqn:E; cbn;
    rewrite ?Hr, ?Hw, ?Hs, ?Hc, ?Ht; repeat split; auto.
  - apply filter_nil_all. intros t Hin.
    destruct (inv_timers w I t Hin) as (Hid & _). rewrite E in Hid.
    injection Hid as ->. now rewrite Pos.eqb_refl.
  - destruct (timers w) as [|t l] eqn:Et; [reflexivity|].
    destruct (inv_timers w I t) as (Hid & _); [rewrite Et; now left|].
    congruence.
Qed.

End Facts.

(** ** The sample runs *)

Lemma reachable_mounted : reachable mounted.
Proof. apply reachable_mount. Qed.

Lemma reachable_withBaseline : reachable withBaseline.
Proof. apply reachable_play, reachable_mounted. Qed.

Lemma reachable_twiceStill : reachable twiceStill.
Proof. apply reachable_play, reachable_withBaseline. Qed.

Lemma reachable_signalLost : reachable signalLost.
Proof. apply reachable_play, reachable_withBaseline. Qed.

Lemma accuracy_gate_witness :
  handlePosition readingCoarse withBaseline = withBaseline
  /\ smoothedRef (handlePosition readingCoarse mounted)
     = Some (rawOf readingCoarse).
Proof.
  split.
  - apply (accuracy_gate readingCoarse withBaseline reachable_withBaseline).
    + vm_compute. discriminate.
    + vm_compute. reflexivity.
  - apply (accuracy_gate readingCoarse mounted reachable_mounted).
    vm_compute. reflexivity.
Defined.

Lemma movement_threshold_gate_witness :
  state (handlePosition reading20 withBaseline)
    = publishedState (mkGeoPosition 11.5 11.5 11.5)
  /\ sameCoordinates (state withBaseline)
       (state (handlePosition readingNear withBaseline)).
Proof.
  assert (H20 : reachesSmoothing reading20 withBaseline = true)
    by (vm_compute; reflexivity).
  assert (Hnear : reachesSmoothing readingNear withBaseline = true)
    by (vm_compute; reflexivity).
  destruct (movement_threshold_gate reading20 withBaseline
              reachable_withBaseline H20) as [Hpush _].
  destruct (movement_threshold_gate readingNear withBaseline
              reachable_withBaseline Hnear) as [_ Hhold].
  split.
  - apply Hpush. right. exists (mkGeoPosition 10 10 10).
    split; vm_compute; reflexivity.
  - apply (Hhold (mkGeoPosition 10 10 10)); vm_compute; reflexivity.
Defined.


(** Re-feeding is not idempotent: after the baseline (10,10,10), the reading
    (20,20,20) is accepted and gives the smoothed position 11.5; fed again
    it gives 12.775, which is published and exposed too. *)
Lemma refeed_not_idempotent :
  reachesSmoothing reading20 withBaseline = true
  /\ smoothedRef (handlePosition reading20 withBaseline)
     = Some (mkGeoPosition 11.5 11.5 11.5)
  /\ smoothedRef (handlePosition reading20
                    (handlePosition reading20 withBaseline))
     = Some (mkGeoPosition 12.775 12.775 12.775)
  /\ state_latitude (state (handlePosition reading20
                              (handlePosition reading20 withBaseline)))
     = Some 12.775
  /\ ~ unchangedButWatchdog
         (handlePosition reading20 withBaseline)
         (handlePosition reading20 (handlePosition reading20 withBaseline)).
Proof.
  repeat (split; [vm_compute; reflexivity|]). intros (Hm & _).
  apply (f_equal (fun o => match o with
                           | Some p => latitude p =? 11.5
                           | None => false
                           end)) in Hm.
  vm_compute in Hm. discriminate.
Qed.

Lemma refeed_accepted_witness :
  flagsClear (state (handlePosition reading20
                       (handlePosition reading20 withBaseline)))
  /\ lastPushedRef (handlePosition reading20
                      (handlePosition reading20 withBaseline))
     = Some (mkGeoPosition 12.775 12.775 12.775).
Proof.
  assert (Hr : reachesSmoothing reading20 withBaseline = true)
    by (vm_compute; reflexivity).
  assert (Hr1 : reachesSmoothing reading20
                  (handlePosition reading20 withBaseline) = true)
    by (vm_compute; reflexivity).
  destruct (refeed_accepted reading20 withBaseline reachable_withBaseline Hr)
    as (_ & Hf2 & _ & _ & _ & Hsm).
  destruct (Hsm Hr1) as (_ & _ & _ & p & Hl & Hfar & _).
  assert (Hp : p = mkGeoPosition 11.5 11.5 11.5)
    by (vm_compute in Hl; congruence).
  subst p. split; [exact Hf2|].
  assert (Ht : (MIN_MOVEMENT_THRESHOLD
                <=? distanceFromPublished (mkGeoPosition 11.5 11.5 11.5)
                      (smooth (smoothedRef
                                 (handlePosition reading20 withBaseline))
                         (rawOf reading20) EMA_ALPHA)) = true)
    by (vm_compute; reflexivity).
  destruct (Hfar Ht) as [Hl2 _].
  etransitivity; [exact Hl2|vm_compute; reflexivity].
Defined.

Lemma transient_error_policy_witness :
  error (state (handleError timedOut withBaseline)) = None
  /\ error (state (handleError timedOut mounted)) = Some ACQUIRING.
Proof.
  assert (Hc : code timedOut <> PERMISSION_DENIED) by discriminate.
  destruct (transient_error_policy timedOut withBaseline reachable_withBaseline Hc)
    as (_ & _ & _ & _ & _ & Hsome & _).
  destruct (transient_error_policy timedOut mounted reachable_mounted Hc)
    as (_ & _ & _ & _ & Hnone & _).
  split.
  - apply Hsome. vm_compute. discriminate.
  - apply Hnone. vm_compute. reflexivity.
Defined.

Lemma transient_blip_clears_error_witness :
  error (state signalLost) = Some SIGNAL_LOST
  /\ error (state (handleError timedOut signalLost)) = None
  /\ loading (state (handleError timedOut signalLost)) = false.
Proof.
  split; [vm_compute; reflexivity|].
  apply (transient_blip_clears_error timedOut signalLost).
  - discriminate.
  - vm_compute. discriminate.
Defined.

Lemma watchdog_fires_witness :
  stale (state signalLost) = true
  /\ state_latitude (state signalLost) = Some 10.
Proof.
  assert (R : reachable (play [Tick 30000] withBaseline))
    by apply reachable_play, reachable_withBaseline.
  assert (Hstep : step (TimerFired 1) (play [Tick 30000] withBaseline)
                  = Some signalLost) by (vm_compute; reflexivity).
  destruct (watchdog_fires 1 (play [Tick 30000] withBaseline) signalLost R
              Hstep) as (Hs & _).
  split; [exact Hs|vm_compute; reflexivity].
Defined.

(** C2.  The hook is mounted, the permission query answers granted, a
    reading arrives, the effect is cleaned up.  The subscription and the
    timeout are gone, but the permission listener is still attached: a later
    change to denied runs it, and it writes to the public state. *)
Theorem cleanup_keeps_permission_listener :
  exists w w',
    run [QueryResolved status_granted; WatchSuccess 1 reading10; Cleanup]
        mountedWithPermissions = Some w
    /\ cancelled w = true /\ watchIdRef w = None /\ watches w = []
    /\ timers w = []
    /\ listening w = true
    /\ step (PermissionChange status_denied) w = Some w'
    /\ error (state w) = None
    /\ error (state w') = Some ACCESS_REVOKED
    /\ permissionState (state w) = granted
    /\ permissionState (state w') = denied
    /\ setStateCalls w' = S (setStateCalls w).
Proof.
  eexists. eexists. split; [vm_compute; reflexivity|].
  vm_compute. repeat split.
Qed.

(** C7.  The query answers granted, the permission changes to denied and
    then back to granted: the listener starts a new subscription and leaves
    the permission state at denied. *)
Theorem regrant_watches_while_denied :
  exists w,
    run [QueryResolved status_granted; PermissionChange status_denied;
         PermissionChange status_granted] mountedWithPermissions = Some w
    /\ reachable w
    /\ permissionState (state w) = denied
    /\ watchIdRef w = Some 2%positive
    /\ watching 2 w = true.
Proof.
  eexists. split; [vm_compute; reflexivity|]. split.
  - apply (reachable_run
             [QueryResolved status_granted; PermissionChange status_denied;
              PermissionChange status_granted] mountedWithPermissions).
    + apply reachable_mount.
    + vm_compute. reflexivity.
  - vm_compute. repeat split.
Qed.

(** * More of the hook, and of the screens that use it *)

Section MoreFacts.
Context `{MathLib}.

(** ** The shape of reachable worlds *)

(** How one reading moves the pipeline's three positions. *)
Lemma handlePosition_positions pos w :
  Inv w ->
  let w' := handlePosition pos w in
  (smoothedRef w' = smoothedRef w /\ lastPushedRef w' = lastPushedRef w
   /\ sameCoordinates (state w) (state w'))
  \/ (let s := smooth (smoothedRef w) (rawOf pos) EMA_ALPHA in
      smoothedRef w' = Some s
      /\ ((lastPushedRef w' = Some s /\ state w' = publishedState s)
          \/ (exists p, lastPushedRef w = Some p /\ lastPushedRef w' = Some p
                /\ (MIN_MOVEMENT_THRESHOLD <=? distanceFromPublished p s) = false
                /\ sameCoordinates (state w) (state w')))).
Proof.
  intros I. cbv zeta. destruct (gate_cases pos w) as [Hd|[[Ha Hs]|Hr]].
  - rewrite (handlePosition_discard pos w Hd). left. repeat split.
  - rewrite (handlePosition_snap pos w Ha Hs). left.
    pose proof (rearm_frame (set_stableCountRef (S (stableCountRef w)) w))
      as (Hst & Hm & Hp & _).
    cbn. rewrite Hst, Hm, Hp. cbn. repeat split; apply clearFlags_coordinates.
  - right. destruct (accepted_world pos w I Hr) as (-> & I0 & Hsp).
    set (w0 := set_stableCountRef _ w) in *.
    destruct (smoothAndPublish_frame pos w0) as (Hm & _).
    split; [exact Hm|].
    destruct (shouldPush pos w0) eqn:Hp.
    + left. destruct (smoothAndPublish_published pos w0 Hp) as (Hst & Hl). auto.
    + right. destruct (smoothAndPublish_held pos w0 Hp) as (Hst & Hl).
      symmetry in Hsp. unfold shouldPush in Hsp.
      destruct (lastPushedRef w) as [p|] eqn:El; [|discriminate].
      exists p. rewrite Hst, Hl. cbn. rewrite El.
      repeat split; auto; apply clearFlags_coordinates.
Qed.

Lemma handlePosition_permission pos w :
  geolocation (handlePosition pos w) = geolocation w
  /\ (handlePosition pos w = w
      \/ permissionState (state (handlePosition pos w)) = granted).
Proof.
  destruct (handlePosition_control pos w) as (_ & _ & _ & _ & _ & _ & Hp).
  split; [|exact Hp].
  unfold handlePosition, smoothAndPublish, rearmStaleness.
  destruct (_ && _); [reflexivity|].
  destruct (stationary pos w); cbn [stableCountRef set_stableCountRef];
    [destruct (_ <=? _)%nat|];
    cbn [stalenessTimerRef set_stableCountRef set_smoothedRef];
    destruct (stalenessTimerRef w); cbn;
    repeat match goal with
           | |- context [if ?b then _ else _] => destruct b; cbn
           | |- context [match lastPushedRef w with _ => _ end] =>
               destruct (lastPushedRef w); cbn
           end; reflexivity.
Qed.


Lemma Shape_alive w : Shape w ->
  (watchIdRef w <> None \/ timers w <> [] \/ queryPending w = true
   \/ listening w = true \/ oneShots w <> O) ->
  geolocation w = true.
Proof.
  intros S Hx. destruct (geolocation w) eqn:G; [reflexivity|].
  destruct (shape_dead w S G) as (_ & Hr & Ht & Hq & Hl & Ho).
  destruct Hx as [Hx|[Hx|[Hx|[Hx|Hx]]]]; congruence.
Qed.

(** A step that keeps the subscription, the positions and the coordinates. *)
Lemma Shape_update w w' :
  Shape w -> geolocation w = true ->
  watches w' = watches w -> watchIdRef w' = watchIdRef w ->
  (List.length (timers w') <= List.length (timers w))%nat ->
  smoothedRef w' = smoothedRef w -> lastPushedRef w' = lastPushedRef w ->
  sameCoordinates (state w) (state w') ->
  isUnsupported (permissionState (state w')) = false ->
  geolocation w' = true ->
  Shape w'.
Proof.
  intros [Sw St Se Sk Su Sd] G Hw Hr Ht Hm Hp (Hc1 & Hc2 & Hc3) Hu G'.
  split.
  - now rewrite Hw, Hr.
  - lia.
  - unfold exposesPublished in *. rewrite Hp, Hc1, Hc2, Hc3, Hm. exact Se.
  - unfold publishedTracksSmoothed in *. now rewrite Hp, Hm.
  - now rewrite Hu, G'.
  - congruence.
Qed.

Lemma Shape_stopWatching w : Shape w -> Shape (stopWatching w).
Proof.
  intros S. unfold stopWatching.
  destruct (watchIdRef w) as [id|] eqn:E; [|exact S].
  destruct S as [Sw St Se Sk Su Sd]. split; cbn; auto.
  - rewrite Sw, E. cbn. now rewrite Pos.eqb_refl.
  - intros G. destruct (Sd G) as (_ & Hr & _). congruence.
Qed.

Lemma Shape_startWatching w :
  Shape w -> geolocation w = true -> watchIdRef w = None ->
  Shape (startWatching w).
Proof.
  intros S G Hr. unfold startWatching.
  destruct (cancelled w); [exact S|].
  destruct S as [Sw St Se Sk Su Sd]. split; cbn; auto.
  - rewrite Sw, Hr. reflexivity.
  - congruence.
Qed.

Lemma Shape_handlePosition pos w :
  Inv w -> Shape w -> geolocation w = true -> Shape (handlePosition pos w).
Proof.
  intros I S G.
  destruct (handlePosition_control pos w) as (Hr & Hw & _).
  destruct (handlePosition_permission pos w) as (Hg & Hp).
  destruct (handlePosition_timers pos w I) as (_ & Ht).
  pose proof (handlePosition_positions pos w I) as Hpos. cbv zeta in Hpos.
  destruct S as [Sw St Se Sk Su Sd].
  assert (Hu : isUnsupported (permissionState (state (handlePosition pos w)))
               = false).
  { destruct Hp as [-> | ->]; [|reflexivity]. now rewrite Su, G. }
  split.
  - now rewrite Hw, Hr.
  - destruct Ht as [Hd|[_ ->]]; [|cbn; lia].
    now rewrite (handlePosition_discard pos w Hd).
  - unfold exposesPublished in *.
    destruct Hpos as [(Hm & Hl & Hc1 & Hc2 & Hc3)
                     |(Hm & [(Hl & Hs)|(p & Hl0 & Hl & _ & Hc1 & Hc2 & Hc3)])].
    + rewrite Hl, Hc1, Hc2, Hc3, Hm. exact Se.
    + rewrite Hl, Hs. cbn. auto.
    + rewrite Hl, Hc1, Hc2, Hc3. rewrite Hl0 in Se. exact Se.
  - unfold publishedTracksSmoothed in *.
    destruct Hpos as [(Hm & Hl & _)
                     |(Hm & [(Hl & _)|(p & _ & Hl & Hd & _)])].
    + now rewrite Hl, Hm.
    + rewrite Hl, Hm. intros p s [= <-] [= <-]. now left.
    + rewrite Hl, Hm. intros p' s [= <-] [= <-]. now right.
  - now rewrite Hu, Hg, G.
  - congruence.
Qed.

Lemma Shape_initial g p : Shape (effect (initialWorld g p)).
Proof.
  unfold effect, startWatching. destruct g, p; cbn; split; cbn;
    unfold exposesPublished, publishedTracksSmoothed; cbn;
    try discriminate; auto; try lia; intros; try discriminate; repeat split.
Qed.

Ltac shape_side :=
  cbn; try reflexivity; try assumption; try lia;
  try (repeat split; reflexivity).

Lemma Shape_step e w w' :
  Inv w -> Ctl w -> Shape w -> step e w = Some w' -> Shape w'.
Proof.
  intros I C S. destruct e; cbn.
  - destruct (queryPending w) eqn:Hq; [|discriminate]. intros [= <-].
    assert (G : geolocation w = true) by (apply (Shape_alive w S); auto).
    destruct (ctl_query w C Hq) as (Hr & _).
    assert (S0 : Shape (set_queryPending false w))
      by (apply (Shape_update w); shape_side; now rewrite (shape_unsupported w S), G).
    unfold onQueryResolved. cbn [cancelled set_queryPending].
    destruct (cancelled w); [exact S0|].
    assert (Ss : forall p, isUnsupported p = false ->
              Shape (set_listening true (startWatching
                       (setPermissionState p (set_queryPending false w))))).
    { intros p Hp. set (w1 := setPermissionState p (set_queryPending false w)).
      assert (S1 : Shape w1) by (apply (Shape_update w); shape_side).
      assert (S2 : Shape (startWatching w1))
        by (apply Shape_startWatching; auto).
      destruct S2 as [Sw St Se Sk Su Sd]. split; auto.
      intros G'. destruct (startWatching_timers w1) as (_ & _).
      assert (geolocation (startWatching w1) = true).
      { unfold startWatching. destruct (cancelled w1); cbn; exact G. }
      cbn in G'. congruence. }
    destruct result; cbn [asPermissionState]; try (apply Ss; reflexivity).
    apply (Shape_update w); shape_side.
  - destruct (queryPending w) eqn:Hq; [|discriminate]. intros [= <-].
    assert (G : geolocation w = true) by (apply (Shape_alive w S); auto).
    destruct (ctl_query w C Hq) as (Hr & _).
    assert (S0 : Shape (set_queryPending false w))
      by (apply (Shape_update w); shape_side; now rewrite (shape_unsupported w S), G).
    unfold onQueryRejected. cbn [cancelled set_queryPending].
    destruct (cancelled w); cbn [negb]; [exact S0|].
    now apply Shape_startWatching.
  - destruct (listening w) eqn:Hl; [|discriminate]. intros [= <-].
    assert (G : geolocation w = true) by (apply (Shape_alive w S); auto).
    unfold onPermissionChange. destruct result; auto.
    + destruct (watchIdRef w) eqn:Hr; auto. now apply Shape_startWatching.
    + apply Shape_stopWatching. apply (Shape_update w); shape_side.
  - destruct (watching id w) eqn:Hx; [|discriminate]. intros [= <-].
    apply Shape_handlePosition; auto. apply (Shape_alive w S). left.
    destruct (Ctl_watching id w C Hx) as (-> & _). discriminate.
  - destruct (watching id w) eqn:Hx; [|discriminate]. intros [= <-].
    assert (G : geolocation w = true).
    { apply (Shape_alive w S). left.
      destruct (Ctl_watching id w C Hx) as (-> & _). discriminate. }
    unfold handleError. destruct (code err).
    + apply Shape_stopWatching. apply (Shape_update w); shape_side.
    + apply (Shape_update w); shape_side. now rewrite (shape_unsupported w S), G.
    + apply (Shape_update w); shape_side. now rewrite (shape_unsupported w S), G.
  - intros [= <-]. unfold recalibrate.
    destruct (geolocation w) eqn:G; cbn [negb]; [|exact S].
    apply (Shape_update w); shape_side. now rewrite (shape_unsupported w S), G.
  - destruct (oneShots w) eqn:Ho; [discriminate|]. intros [= <-].
    assert (G : geolocation w = true).
    { apply (Shape_alive w S). right; right; right; right. congruence. }
    apply Shape_handlePosition; auto.
    + apply (Inv_frame w); auto; try (cbn; lia); apply incl_refl.
    + apply (Shape_update w); shape_side. now rewrite (shape_unsupported w S), G.
  - destruct (oneShots w) eqn:Ho; [discriminate|]. intros [= <-].
    assert (G : geolocation w = true).
    { apply (Shape_alive w S). right; right; right; right. congruence. }
    apply (Shape_update w); shape_side. now rewrite (shape_unsupported w S), G.
  - destruct (due id w) eqn:Hd; [|discriminate]. intros [= <-].
    assert (G : geolocation w = true).
    { apply (Shape_alive w S). right; left.
      apply due_inv in Hd as (t & Hin & _). intros E. rewrite E in Hin.
      destruct Hin. }
    apply (Shape_update w); shape_side.
    + apply filter_length_le.
    + now rewrite (shape_unsupported w S), G.
  - destruct (geolocation w) eqn:G; intros [= <-]; [|exact S].
    unfold cleanup.
    assert (S1 : Shape (stopWatching (set_cancelled true w))).
    { apply Shape_stopWatching. apply (Shape_update w); shape_side.
      now rewrite (shape_unsupported w S), G. }
    destruct (stalenessTimerRef _); [|exact S1].
    assert (G1 : geolocation (stopWatching (set_cancelled true w)) = true).
    { unfold stopWatching. destruct (watchIdRef _); cbn; exact G. }
    apply (Shape_update (stopWatching (set_cancelled true w))); shape_side.
    + apply filter_length_le.
    + now rewrite (shape_unsupported _ S1), G1.
  - destruct (0 <=? dt)%Z; [|discriminate]. intros [= <-].
    destruct (geolocation w) eqn:G.
    + apply (Shape_update w); shape_side. now rewrite (shape_unsupported w S), G.
    + destruct S as [Sw St Se Sk Su Sd]. split; auto.
Qed.

Lemma reachable_Shape w : reachable w -> Shape w.
Proof.
  induction 1 as [g p|e w w' R IH Hs]; [apply Shape_initial|].
  exact (Shape_step e w w' (reachable_Inv w R) (reachable_Ctl w R) IH Hs).
Qed.

(** X1.  The hook holds at most one subscription: the browser's active
    watches are exactly the one whose id is in [watchIdRef], or none when
    the ref is null; no watch is ever leaked by starting a second one or
    by forgetting an id. *)
Theorem one_subscription w :
  reachable w ->
  watches w = match watchIdRef w with Some id => [id] | None => [] end
  /\ (forall id, watching id w = true <-> watchIdRef w = Some id).
Proof.
  intros R. pose proof (shape_watches w (reachable_Shape w R)) as Hw.
  split; [exact Hw|]. intros id. unfold watching. rewrite Hw.
  destruct (watchIdRef w) as [i|]; cbn.
  - rewrite orb_false_r. rewrite Pos.eqb_eq. split; congruence.
  - split; discriminate.
Qed.

(** X2.  At most one staleness timeout is pending at any time; it is the
    one [stalenessTimerRef] names, its delay is 30 000 ms, and it was
    armed in the past. *)
Theorem one_pending_timeout w :
  reachable w ->
  (List.length (timers w) <= 1)%nat
  /\ forall t, In t (timers w) ->
       stalenessTimerRef w = Some (timer_id t)
       /\ timer_delay t = 30000%Z
       /\ (timer_armedAt t <= now w)%Z.
Proof.
  intros R. split; [apply (shape_timers w (reachable_Shape w R))|].
  apply (inv_timers w (reachable_Inv w R)).
Qed.

(** X3.  The coordinates of the public state are always those of
    [lastPushedRef]: null together when nothing was published, equal field
    by field otherwise; and a smoothed position exists exactly when a
    published one does. *)
Theorem exposed_is_published w :
  reachable w ->
  exposesPublished w
  /\ (smoothedRef w = None <-> lastPushedRef w = None).
Proof.
  intros R. split; [apply (shape_exposed w (reachable_Shape w R))|].
  pose proof (inv_pushed w (reachable_Inv w R)) as E.
  destruct (smoothedRef w), (lastPushedRef w); cbn in E; split; congruence.
Qed.

(** X4.  The published position never lags the smoothed one by 5 m or
    more: the two are equal, or the source's test
    [haversine(...) >= MIN_MOVEMENT_THRESHOLD] is false for them. *)
Theorem published_tracks_smoothed w p s :
  reachable w -> lastPushedRef w = Some p -> smoothedRef w = Some s ->
  p = s \/ (MIN_MOVEMENT_THRESHOLD <=? distanceFromPublished p s) = false.
Proof.
  intros R. apply (shape_tracks w (reachable_Shape w R)).
Qed.

(** X16.  Without [navigator.geolocation] the hook sits in one state for
    ever: permission [unsupported], the not-supported message, loading
    off, no coordinates, no watch, no timeout, whatever happens next. With
    it, the permission state is never [unsupported]. *)
Theorem unsupported_is_terminal w :
  reachable w ->
  (geolocation w = false ->
   state w = unsupportedState
   /\ watchIdRef w = None /\ watches w = [] /\ timers w = []
   /\ forall es w', run es w = Some w' -> state w' = unsupportedState)
  /\ (geolocation w = true -> permissionState (state w) <> unsupported).
Proof.
  intros R. pose proof (reachable_Shape w R) as S. split.
  - intros G. destruct (shape_dead w S G) as (Hs & Hr & Ht & _).
    pose proof (shape_watches w S) as Hw. rewrite Hr in Hw.
    repeat split; auto.
    intros es. revert w R S G Hs Hr Ht Hw.
    induction es as [|e es IH]; simpl; intros w R S G Hs Hr Ht Hw w'.
    + intros [= <-]. exact Hs.
    + destruct (step e w) as [w1|] eqn:E; [|discriminate].
      assert (R1 : reachable w1) by exact (reachable_step e w w1 R E).
      pose proof (reachable_Shape w1 R1) as S1.
      assert (G1 : geolocation w1 = false).
      { destruct (shape_dead w S G) as (_ & _ & _ & Hq & Hl & Ho).
        destruct e; cbn in E.
        - rewrite Hq in E. discriminate.
        - rewrite Hq in E. discriminate.
        - rewrite Hl in E. discriminate.
        - unfold watching in E. rewrite Hw in E. discriminate.
        - unfold watching in E. rewrite Hw in E. discriminate.
        - unfold recalibrate in E. rewrite G in E. injection E as <-. exact G.
        - rewrite Ho in E. discriminate.
        - rewrite Ho in E. discriminate.
        - unfold due in E. rewrite Ht in E. discriminate.
        - rewrite G in E. injection E as <-. exact G.
        - destruct (0 <=? dt)%Z; [|discriminate]. injection E as <-. exact G. }
      destruct (shape_dead w1 S1 G1) as (Hs1 & Hr1 & Ht1 & _).
      pose proof (shape_watches w1 S1) as Hw1. rewrite Hr1 in Hw1.
      apply (IH w1); auto.
  - intros G. pose proof (shape_unsupported w S) as Hu. rewrite G in Hu.
    intros E. rewrite E in Hu. discriminate.
Qed.


(** *** Staying unsubscribed *)

Lemma handleError_control e w :
  queryPending (handleError e w) = queryPending w
  /\ listening (handleError e w) = listening w
  /\ cancelled (handleError e w) = cancelled w
  /\ (watchIdRef w = None -> watchIdRef (handleError e w) = None).
Proof.
  unfold handleError, stopWatching, setState.
  destruct (code e); cbn; destruct (watchIdRef w) eqn:E; cbn; rewrite ?E;
    repeat split; auto; try (intros Hx; discriminate Hx).
Qed.

(** Without a subscription and with the permission query settled, a step
    subscribes only when the listener sees the permission granted. *)
Lemma idle_step e w w' :
  watchIdRef w = None -> queryPending w = false ->
  isRegrant e = false \/ listening w = false \/ cancelled w = true ->
  step e w = Some w' ->
  watchIdRef w' = None /\ queryPending w' = false
  /\ listening w' = listening w
  /\ (cancelled w = true -> cancelled w' = true).
Proof.
  intros Hr Hq Hx. destruct e; cbn.
  - rewrite Hq. discriminate.
  - rewrite Hq. discriminate.
  - destruct (listening w) eqn:Hl; [|discriminate]. intros [= <-].
    unfold onPermissionChange, stopWatching, startWatching.
    destruct result; cbn; rewrite ?Hr; cbn; auto.
    destruct Hx as [Hx|[Hx|Hx]]; try discriminate. rewrite Hx. auto.
  - destruct (watching id w); [|discriminate]. intros [= <-].
    destruct (handlePosition_control pos w) as (-> & _ & -> & -> & -> & _). auto.
  - destruct (watching id w); [|discriminate]. intros [= <-].
    destruct (handleError_control err w) as (-> & -> & -> & Hn). auto.
  - intros [= <-]. unfold recalibrate. destruct (geolocation w); cbn; auto.
  - destruct (oneShots w); [discriminate|]. intros [= <-].
    destruct (handlePosition_control pos (set_oneShots n w))
      as (-> & _ & -> & -> & -> & _). auto.
  - destruct (oneShots w); [discriminate|]. intros [= <-]. cbn. auto.
  - destruct (due id w); [|discriminate]. intros [= <-]. cbn. auto.
  - unfold cleanup, stopWatching. cbn. rewrite Hr.
    destruct (geolocation w); intros [= <-]; auto.
    cbn. destruct (stalenessTimerRef w); cbn; auto.
  - destruct (0 <=? dt)%Z; [|discriminate]. intros [= <-]. cbn. auto.
Qed.

Lemma idle_run es w w' :
  watchIdRef w = None -> queryPending w = false ->
  forallb (fun e => negb (isRegrant e)) es = true
  \/ listening w = false \/ cancelled w = true ->
  run es w = Some w' ->
  watchIdRef w' = None /\ queryPending w' = false
  /\ listening w' = listening w
  /\ (cancelled w = true -> cancelled w' = true).
Proof.
  revert w. induction es as [|e es IH]; simpl; intros w Hr Hq Hx.
  - intros [= <-]. auto.
  - destruct (step e w) as [w1|] eqn:E; [|discriminate]. intros Hrun.
    assert (Hx1 : isRegrant e = false \/ listening w = false
                  \/ cancelled w = true).
    { destruct Hx as [Hx|[Hx|Hx]]; auto.
      apply andb_prop in Hx as [Hx _]. left. now apply negb_true_iff. }
    destruct (idle_step e w w1 Hr Hq Hx1 E) as (Hr1 & Hq1 & Hl1 & Hc1).
    assert (Hx2 : forallb (fun e => negb (isRegrant e)) es = true
                  \/ listening w1 = false \/ cancelled w1 = true).
    { destruct Hx as [Hx|[Hx|Hx]]; auto.
      - apply andb_prop in Hx as [_ Hx]. auto.
      - right; left. congruence. }
    destruct (IH w1 Hr1 Hq1 Hx2 Hrun) as (? & ? & Hl2 & Hc2).
    repeat split; auto. congruence.
Qed.

Lemma run_reachable_watches es w w' :
  reachable w -> run es w = Some w' -> watchIdRef w' = None ->
  watches w' = [].
Proof.
  intros R Hrun Hr.
  pose proof (shape_watches w' (reachable_Shape w' (reachable_run es w w' R Hrun)))
    as Hw.
  now rewrite Hr in Hw.
Qed.

(** X14.  After the subscription is gone (permission-denied error,
    revocation), nothing but the permission listener seeing [granted]
    brings it back: no reading, error, timeout, recalibration or cleanup
    does. *)
Theorem stays_unsubscribed es w w' :
  reachable w -> watchIdRef w = None -> queryPending w = false ->
  forallb (fun e => negb (isRegrant e)) es = true ->
  run es w = Some w' ->
  watchIdRef w' = None /\ watches w' = [].
Proof.
  intros R Hr Hq Hes Hrun.
  destruct (idle_run es w w' Hr Hq (or_introl Hes) Hrun) as (Hr' & _).
  split; [exact Hr'|]. exact (run_reachable_watches es w w' R Hrun Hr').
Qed.

(** X15.  When the permission query answers [denied], no subscription is
    started and no listener is attached, so none is ever started
    afterwards, whatever the user allows later; the same holds after a
    permission-denied error in a browser without the Permissions API. *)
Theorem denied_without_listener_is_final es w w' :
  reachable w -> watchIdRef w = None -> queryPending w = false ->
  listening w = false ->
  run es w = Some w' ->
  watchIdRef w' = None /\ watches w' = [] /\ listening w' = false.
Proof.
  intros R Hr Hq Hl Hrun.
  destruct (idle_run es w w' Hr Hq (or_intror (or_introl Hl)) Hrun)
    as (Hr' & _ & Hl' & _).
  repeat split; [exact Hr'| |congruence].
  exact (run_reachable_watches es w w' R Hrun Hr').
Qed.

Ltac not_a_probe :=
  let E := fresh in intros [E|[E|[E|[E|E]]]]; discriminate E.

Lemma cancelled_step e w w' :
  cancelled w = true -> step e w = Some w' ->
  cancelled w' = true
  /\ (watchIdRef w = None -> watchIdRef w' = None)
  /\ (e = QueryResolved status_granted \/ e = QueryResolved status_denied
      \/ e = QueryResolved status_prompt \/ e = QueryRejected
      \/ e = PermissionChange status_granted ->
      state w' = state w).
Proof.
  intros Hc. destruct e; cbn.
  - destruct (queryPending w); [|discriminate]. intros [= <-].
    unfold onQueryResolved. cbn. rewrite Hc. cbn. auto.
  - destruct (queryPending w); [|discriminate]. intros [= <-].
    unfold onQueryRejected. cbn. rewrite Hc. cbn. auto.
  - destruct (listening w); [|discriminate]. intros [= <-].
    unfold onPermissionChange, stopWatching, startWatching, setState.
    destruct result; cbn.
    + rewrite Hc. destruct (watchIdRef w) eqn:E; rewrite ?E;
        repeat split; auto.
    + destruct (watchIdRef w) eqn:E; cbn; rewrite ?E; repeat split; auto; try not_a_probe.
    + repeat split; auto; try not_a_probe.
  - destruct (watching id w); [|discriminate]. intros [= <-].
    destruct (handlePosition_control pos w) as (-> & _ & _ & _ & -> & _).
    repeat split; auto; try not_a_probe.
  - destruct (watching id w); [|discriminate]. intros [= <-].
    destruct (handleError_control err w) as (_ & _ & -> & Hn).
    repeat split; auto; try not_a_probe.
  - intros [= <-]. unfold recalibrate. destruct (geolocation w); cbn;
      repeat split; auto; try not_a_probe.
  - destruct (oneShots w); [discriminate|]. intros [= <-].
    destruct (handlePosition_control pos (set_oneShots n w))
      as (-> & _ & _ & _ & -> & _).
    repeat split; auto; try not_a_probe.
  - destruct (oneShots w); [discriminate|]. intros [= <-]. cbn.
    repeat split; auto; try not_a_probe.
  - destruct (due id w); [|discriminate]. intros [= <-]. cbn.
    repeat split; auto; try not_a_probe.
  - unfold cleanup, stopWatching. cbn.
    destruct (geolocation w); intros [= <-]; cbn.
    + destruct (watchIdRef w) eqn:E; cbn; destruct (stalenessTimerRef w); cbn;
        repeat split; auto; try not_a_probe.
    + repeat split; auto; try not_a_probe.
  - destruct (0 <=? dt)%Z; [|discriminate]. intros [= <-]. cbn.
    repeat split; auto; try not_a_probe.
Qed.

Lemma cancelled_run es w w' :
  cancelled w = true -> watchIdRef w = None -> run es w = Some w' ->
  cancelled w' = true /\ watchIdRef w' = None.
Proof.
  revert w. induction es as [|e es IH]; simpl; intros w Hc Hr.
  - intros [= <-]. auto.
  - destruct (step e w) as [w1|] eqn:E; [|discriminate].
    destruct (cancelled_step e w w1 Hc E) as (Hc1 & Hr1 & _).
    apply IH; auto.
Qed.

(** X18.  Cleanup is final for the subscription: whatever happens
    afterwards (the permission query resolving, the permission being
    granted again, a recalibration), no subscription is started; and the
    query's handlers and the listener's [granted] branch then leave the
    public state alone. *)
Theorem cleanup_is_final es w w' :
  reachable w -> geolocation w = true ->
  run es (cleanup w) = Some w' ->
  cancelled w' = true /\ watchIdRef w' = None /\ watches w' = []
  /\ forall e w'', e = QueryResolved status_granted
                   \/ e = QueryResolved status_denied
                   \/ e = QueryResolved status_prompt
                   \/ e = QueryRejected
                   \/ e = PermissionChange status_granted ->
       step e w' = Some w'' -> state w'' = state w'.
Proof.
  intros R G Hrun.
  assert (Rc : reachable (cleanup w)).
  { apply (reachable_step Cleanup w). exact R. cbn. now rewrite G. }
  assert (Hc : cancelled (cleanup w) = true /\ watchIdRef (cleanup w) = None).
  { unfold cleanup.
    destruct (stopWatching_timers (set_cancelled true w)) as (_ & _ & Ht).
    destruct (stopWatching_control (set_cancelled true w)
                (ctl_watches w (reachable_Ctl w R))) as (Hr0 & _ & _ & _ & _ & Hc0).
    rewrite Ht. cbn. destruct (stalenessTimerRef w); cbn; rewrite Hr0, Hc0; auto. }
  destruct Hc as (Hc & Hr).
  destruct (cancelled_run es (cleanup w) w' Hc Hr Hrun) as (Hc' & Hr').
  repeat split; auto.
  - exact (run_reachable_watches es (cleanup w) w' Rc Hrun Hr').
  - intros e w'' He Hstep.
    destruct (cancelled_step e w' w'' Hc' Hstep) as (_ & _ & Hs). auto.
Qed.


(** *** The permission-denied error *)

Lemma permission_denied_frame e w :
  reachable w -> code e = PERMISSION_DENIED ->
  permissionState (state (handleError e w)) = denied
  /\ watchIdRef (handleError e w) = None
  /\ timers (handleError e w) = timers w
  /\ now (handleError e w) = now w.
Proof.
  intros R Hc. unfold handleError, stopWatching, setState. rewrite Hc. cbn.
  destruct (watchIdRef w) eqn:E; cbn; rewrite ?E; repeat split; auto.
Qed.

(** X9.  A permission-denied error sets the permission to [denied], shows
    the access-denied message, turns loading off and drops the
    subscription; it keeps the coordinates, the stale flag, the positions,
    the stable count, and the pending staleness timeout. *)
Theorem permission_denied_error e w :
  reachable w -> code e = PERMISSION_DENIED ->
  let w' := handleError e w in
  permissionState (state w') = denied
  /\ error (state w') = Some ACCESS_DENIED
  /\ loading (state w') = false
  /\ stale (state w') = stale (state w)
  /\ sameCoordinates (state w) (state w')
  /\ watchIdRef w' = None /\ watches w' = []
  /\ (forall id, watching id w' = false)
  /\ timers w' = timers w
  /\ stalenessTimerRef w' = stalenessTimerRef w
  /\ smoothedRef w' = smoothedRef w /\ lastPushedRef w' = lastPushedRef w
  /\ stableCountRef w' = stableCountRef w.
Proof.
  intros R Hc. cbv zeta. pose proof (shape_watches w (reachable_Shape w R)) as Hw.
  unfold handleError, stopWatching, setState. rewrite Hc. cbn.
  destruct (watchIdRef w) as [id|] eqn:E; cbn; rewrite ?E, Hw; cbn;
    rewrite ?Pos.eqb_refl; cbn; repeat split; auto.
Qed.

(** X10.  A denial does not disarm the watchdog: a timeout pending when
    the permission-denied error arrives still runs, and then shows the
    signal-lost message in place of the denial, in a state that is both
    denied and stale. *)
Theorem denial_then_watchdog e id t dt w :
  reachable w -> code e = PERMISSION_DENIED ->
  watching id w = true -> In t (timers w) ->
  (0 <= dt)%Z -> (timer_armedAt t + 30000 <= now w + dt)%Z ->
  exists w',
    run [WatchError id e; Tick dt; TimerFired (timer_id t)] w = Some w'
    /\ permissionState (state w') = denied
    /\ error (state w') = Some SIGNAL_LOST
    /\ stale (state w') = true
    /\ watchIdRef w' = None.
Proof.
  intros R Hc Hx Hin Hdt Hdue.
  destruct (inv_timers w (reachable_Inv w R) t Hin) as (_ & Hdl & _).
  destruct (permission_denied_frame e w R Hc) as (Hp & Hr & Ht & Hn).
  cbn [run step]. rewrite Hx.
  apply Z.leb_le in Hdt. rewrite Hdt.
  set (w1 := handleError e w) in *.
  assert (Hd : due (timer_id t) (set_now (now w1 + dt) w1) = true).
  { unfold due. cbn. rewrite Ht. apply existsb_exists. exists t.
    split; [exact Hin|]. rewrite Pos.eqb_refl, Hdl, Hn. cbn.
    apply Z.leb_le. unfold STALENESS_TIMEOUT_MS. lia. }
  rewrite Hd. eexists. split; [reflexivity|]. cbn. auto.
Qed.


(** *** recalibrate *)

(** X19.  A failed recalibration: the message is the failure, loading and
    stale are off, and nothing else has moved: coordinates, permission
    state, subscription, positions, stable count and watchdog are as
    before. *)
Theorem recalibrate_failure err w :
  geolocation w = true ->
  exists w',
    run [Recalibrate; OneShotError err] w = Some w'
    /\ error (state w')
       = Some ("Recalibration failed: " ++ message err)%string
    /\ loading (state w') = false /\ stale (state w') = false
    /\ sameCoordinates (state w) (state w')
    /\ permissionState (state w') = permissionState (state w)
    /\ watchIdRef w' = watchIdRef w /\ watches w' = watches w
    /\ smoothedRef w' = smoothedRef w /\ lastPushedRef w' = lastPushedRef w
    /\ stableCountRef w' = stableCountRef w
    /\ timers w' = timers w /\ oneShots w' = oneShots w.
Proof.
  intros G. cbn [run step]. unfold recalibrate. rewrite G. cbn.
  eexists. split; [reflexivity|]. cbn. repeat split.
Qed.

(** X20.  A recalibration fix goes through the same gates as any reading:
    with a baseline in place, a fix whose accuracy is above 100 m is
    dropped, and the loading flag that [recalibrate] raised stays up. *)
Theorem recalibrate_coarse_fix_keeps_loading pos w :
  geolocation w = true -> smoothedRef w <> None ->
  (MAX_ACCEPTABLE_ACCURACY <? coords_accuracy pos) = true ->
  exists w',
    run [Recalibrate; OneShotSuccess pos] w = Some w'
    /\ loading (state w') = true
    /\ error (state w') = None /\ stale (state w') = false
    /\ sameCoordinates (state w) (state w')
    /\ permissionState (state w') = permissionState (state w)
    /\ smoothedRef w' = smoothedRef w /\ lastPushedRef w' = lastPushedRef w
    /\ stableCountRef w' = stableCountRef w
    /\ timers w' = timers w /\ oneShots w' = oneShots w.
Proof.
  intros G Hb Ha. cbn [run step]. unfold recalibrate. rewrite G. cbn.
  rewrite handlePosition_discard.
  - eexists. split; [reflexivity|]. cbn. repeat split.
  - unfold accuracyRejects. rewrite Ha. cbn.
    destruct (smoothedRef w); [reflexivity|congruence].
Qed.

(** X21.  Recalibrating never touches the subscription: neither the
    request nor its success or failure starts, stops or replaces the
    watch, attaches the listener or settles the permission query. *)
Theorem recalibration_keeps_subscription e w w' :
  e = Recalibrate \/ (exists pos, e = OneShotSuccess pos)
  \/ (exists err, e = OneShotError err) ->
  step e w = Some w' ->
  watchIdRef w' = watchIdRef w /\ watches w' = watches w
  /\ listening w' = listening w /\ queryPending w' = queryPending w
  /\ cancelled w' = cancelled w.
Proof.
  intros [->|[[pos ->]|[err ->]]]; cbn.
  - intros [= <-]. unfold recalibrate. destruct (geolocation w); cbn; auto.
  - destruct (oneShots w); [discriminate|]. intros [= <-].
    destruct (handlePosition_control pos (set_oneShots n w))
      as (-> & -> & -> & -> & -> & _). auto.
  - destruct (oneShots w); [discriminate|]. intros [= <-]. cbn. auto.
Qed.

(** *** Readings *)

(** X6.  Every reading that the accuracy gate lets through, moving or not,
    ends with error, loading and stale cleared and the permission granted,
    and with exactly one pending timeout, due 30 s later. *)
Theorem reading_clears_flags pos w :
  reachable w -> accuracyRejects pos w = false ->
  flagsClear (state (handlePosition pos w))
  /\ watchdogRearmed w (handlePosition pos w).
Proof.
  intros R Ha. pose proof (reachable_Inv w R) as I. split.
  - destruct (gate_cases pos w) as [Hd|[[_ Hs]|Hr]]; [congruence| |].
    + rewrite (handlePosition_snap pos w Ha Hs).
      pose proof (rearm_frame (set_stableCountRef (S (stableCountRef w)) w))
        as (Hst & _).
      cbn. rewrite Hst. cbn. apply clearFlags_clear, (inv_error w I).
    + apply (accepted_flagsClear pos w I Hr).
  - destruct (handlePosition_timers pos w I) as (_ & [Hd|Ht]);
      [congruence|exact Ht].
Qed.

Lemma feed_cons pos ps w : feed (pos :: ps) w = feed ps (handlePosition pos w).
Proof. reflexivity. Qed.

(** X7.  Once snapped, the position is frozen for as long as the readings
    report a speed in [0, 0.3): whatever their coordinates and accuracy,
    the smoothed position, the published position and the exposed
    coordinates do not move. *)
Theorem snap_freezes_position ps w :
  reachable w -> smoothedRef w <> None ->
  (SNAP_AFTER_STABLE_COUNT <= S (stableCountRef w))%nat ->
  forallb reportsStill ps = true ->
  smoothedRef (feed ps w) = smoothedRef w
  /\ lastPushedRef (feed ps w) = lastPushedRef w
  /\ sameCoordinates (state w) (state (feed ps w))
  /\ (stableCountRef w <= stableCountRef (feed ps w))%nat.
Proof.
  intros R. pose proof (reachable_Inv w R) as I. clear R. revert w I.
  induction ps as [|pos ps IH]; intros w I Hb Hc Hs.
  - cbn. repeat split. lia.
  - rewrite feed_cons. cbn in Hs. apply andb_prop in Hs as [Hp Hs].
    assert (Hst : stationary pos w = true).
    { unfold stationary. unfold reportsStill in Hp.
      destruct (coords_speed pos); [|discriminate]. rewrite Hp.
      destruct (smoothedRef w); [reflexivity|congruence]. }
    assert (Hstep : smoothedRef (handlePosition pos w) = smoothedRef w
                    /\ lastPushedRef (handlePosition pos w) = lastPushedRef w
                    /\ sameCoordinates (state w) (state (handlePosition pos w))
                    /\ (stableCountRef w
                        <= stableCountRef (handlePosition pos w))%nat).
    { destruct (accuracyRejects pos w) eqn:Ha.
      - rewrite (handlePosition_discard pos w Ha). repeat split. lia.
      - assert (Hsn : snaps pos w = true).
        { unfold snaps. rewrite Hst. now apply Nat.leb_le. }
        rewrite (handlePosition_snap pos w Ha Hsn).
        pose proof (rearm_frame (set_stableCountRef (S (stableCountRef w)) w))
          as (Hst' & Hm & Hl & Hk & _).
        cbn. rewrite Hst', Hm, Hl, Hk. cbn.
        repeat split; try apply clearFlags_coordinates. lia. }
    destruct Hstep as (Hm & Hl & (Hc1 & Hc2 & Hc3) & Hk).
    destruct (IH (handlePosition pos w)) as (Hm' & Hl' & (Hd1 & Hd2 & Hd3) & Hk');
      auto.
    + now apply Inv_handlePosition.
    + now rewrite Hm.
    + lia.
    + rewrite Hm', Hl', Hm, Hl. unfold sameCoordinates.
      rewrite Hd1, Hd2, Hd3. repeat split; auto. lia.
Qed.

(** X5.  Coordinates, once exposed, are never withdrawn, and only a
    reading can change them: errors, revocation, the watchdog,
    recalibration requests and failures, cleanup and the permission query
    leave them alone. *)
Theorem coordinates_persist e w w' :
  reachable w -> step e w = Some w' ->
  (isReading e = false -> sameCoordinates (state w) (state w'))
  /\ (state_latitude (state w) <> None -> state_latitude (state w') <> None).
Proof.
  intros R Hstep.
  assert (Hpos : forall pos w0, Inv w0 -> state w0 = state w ->
            state_latitude (state w) <> None ->
            state_latitude (state (handlePosition pos w0)) <> None).
  { intros pos w0 I0 Hs Hl.
    pose proof (handlePosition_positions pos w0 I0) as Hp. cbv zeta in Hp.
    destruct Hp as [(_ & _ & Hc & _)
                   |(_ & [(_ & Hp)|(p & _ & _ & _ & Hc & _)])].
    - rewrite Hc, Hs. exact Hl.
    - rewrite Hp. discriminate.
    - rewrite Hc, Hs. exact Hl. }
  pose proof (reachable_Inv w R) as I.
  assert (Hsame : sameCoordinates (state w) (state w') ->
            (isReading e = false -> sameCoordinates (state w) (state w'))
            /\ (state_latitude (state w) <> None ->
                state_latitude (state w') <> None)).
  { intros (Hc & Hc2 & Hc3). split; [repeat split; auto|]. now rewrite Hc. }
  destruct e; cbn in Hstep.
  - destruct (queryPending w); [|discriminate]. injection Hstep as <-.
    apply Hsame. unfold onQueryResolved, startWatching. cbn.
    destruct (cancelled w) eqn:Hc; cbn; [repeat split|].
    destruct result; cbn; rewrite ?Hc; cbn; repeat split.
  - destruct (queryPending w); [|discriminate]. injection Hstep as <-.
    apply Hsame. unfold onQueryRejected, startWatching. cbn.
    destruct (cancelled w) eqn:Hc; cbn; rewrite ?Hc; cbn; repeat split.
  - destruct (listening w); [|discriminate]. injection Hstep as <-.
    apply Hsame. unfold onPermissionChange, startWatching, stopWatching.
    destruct result; cbn.
    + destruct (watchIdRef w); [repeat split|].
      destruct (cancelled w); cbn; repeat split.
    + destruct (watchIdRef w); cbn; repeat split.
    + repeat split.
  - destruct (watching id w); [|discriminate]. injection Hstep as <-.
    split; [discriminate|]. apply Hpos; auto.
  - destruct (watching id w); [|discriminate]. injection Hstep as <-.
    apply Hsame. unfold handleError, stopWatching.
    destruct (code err); cbn; [|repeat split..].
    destruct (watchIdRef w); cbn; repeat split.
  - injection Hstep as <-. apply Hsame. unfold recalibrate.
    destruct (geolocation w); cbn; repeat split.
  - destruct (oneShots w); [discriminate|]. injection Hstep as <-.
    split; [discriminate|]. apply Hpos; auto.
    apply (Inv_frame w); auto; try (cbn; lia); apply incl_refl.
  - destruct (oneShots w); [discriminate|]. injection Hstep as <-.
    apply Hsame. cbn. repeat split.
  - destruct (due id w); [|discriminate]. injection Hstep as <-.
    apply Hsame. cbn. repeat split.
  - apply Hsame. destruct (geolocation w); injection Hstep as <-;
      [|repeat split].
    unfold cleanup, stopWatching. cbn.
    destruct (watchIdRef w); cbn; destruct (stalenessTimerRef w); cbn;
      repeat split.
  - destruct (0 <=? dt)%Z; [|discriminate]. injection Hstep as <-.
    apply Hsame. cbn. repeat split.
Qed.

(** X11.  The answer of the permission query. On [denied]: permission
    [denied], the access-denied message, loading off, no watch, no
    listener. On [granted] or [prompt]: the permission is the answer,
    error and loading are kept, one watch is started and the listener
    attached. Either way coordinates, smoothed position and timeouts are
    untouched. *)
Theorem permission_probe result w w' :
  reachable w -> cancelled w = false ->
  step (QueryResolved result) w = Some w' ->
  sameCoordinates (state w) (state w')
  /\ smoothedRef w' = smoothedRef w /\ timers w' = timers w
  /\ queryPending w' = false
  /\ match result with
     | status_denied =>
         permissionState (state w') = denied
         /\ error (state w') = Some ACCESS_DENIED
         /\ loading (state w') = false
         /\ watchIdRef w' = None /\ watches w' = []
         /\ listening w' = false
     | _ =>
         permissionState (state w') = asPermissionState result
         /\ error (state w') = error (state w)
         /\ loading (state w') = loading (state w)
         /\ watchIdRef w' = Some (nextWatch w)
         /\ watches w' = [nextWatch w]
         /\ listening w' = true
     end.
Proof.
  intros R Hc. cbn. destruct (queryPending w) eqn:Hq; [|discriminate].
  intros [= <-].
  destruct (ctl_query w (reachable_Ctl w R) Hq) as (Hr & Hl & _).
  pose proof (shape_watches w (reachable_Shape w R)) as Hw. rewrite Hr in Hw.
  unfold onQueryResolved, startWatching, setPermissionState, setState.
  cbn. rewrite Hc.
  destruct result; cbn; rewrite ?Hc; cbn; rewrite ?Hw, ?Hr, ?Hl;
    repeat split; auto.
Qed.

(** X12.  When the listener sees the permission change to [denied], the
    permission becomes [denied] with the access-revoked message and the
    subscription is dropped; loading, stale, the coordinates, the
    positions and the pending timeout stay as they were. *)
Theorem permission_revoked w w' :
  reachable w ->
  step (PermissionChange status_denied) w = Some w' ->
  permissionState (state w') = denied
  /\ error (state w') = Some ACCESS_REVOKED
  /\ loading (state w') = loading (state w)
  /\ stale (state w') = stale (state w)
  /\ sameCoordinates (state w) (state w')
  /\ watchIdRef w' = None /\ watches w' = []
  /\ timers w' = timers w
  /\ smoothedRef w' = smoothedRef w /\ lastPushedRef w' = lastPushedRef w.
Proof.
  intros R. cbn. destruct (listening w); [|discriminate]. intros [= <-].
  pose proof (shape_watches w (reachable_Shape w R)) as Hw.
  unfold onPermissionChange, stopWatching, setState. cbn.
  destruct (watchIdRef w) as [id|] eqn:E; cbn; rewrite ?E, Hw; cbn;
    rewrite ?Pos.eqb_refl; cbn; repeat split; auto.
Qed.

(** ** The hint of the bottom sheet *)

(** X22.  The bottom sheet shows the hint unlocked exactly when a cache is
    selected, it has a non-empty hint and is not found, a location is
    known (the mock location first, else the hook's coordinates), and the
    haversine distance from it to the cache (a null coordinate counted as
    0) is at most 50 m. With no mock location and no fix the hint is never
    unlocked; with a mock location the hook's state plays no part. *)
Theorem hint_unlocks_within_50m mock geo selected :
  (sheetHint mock geo selected = HintUnlocked <->
   exists c loc,
     selected = Some c /\ effectiveLocation mock geo = Some loc
     /\ truthy (cache_hint c) = true /\ cache_is_found c = false
     /\ (haversine (loc_latitude loc) (loc_longitude loc)
           (orElse (cache_lat c) 0) (orElse (cache_lng c) 0)
         <=? HINT_PROXIMITY_METERS) = true)
  /\ (mock = None -> state_latitude geo = None ->
      sheetHint mock geo selected <> HintUnlocked)
  /\ (forall m geo', mock = Some m ->
      sheetHint mock geo' selected = sheetHint mock geo selected).
Proof.
  assert (Hiff : sheetHint mock geo selected = HintUnlocked <->
    exists c loc,
     selected = Some c /\ effectiveLocation mock geo = Some loc
     /\ truthy (cache_hint c) = true /\ cache_is_found c = false
     /\ (haversine (loc_latitude loc) (loc_longitude loc)
           (orElse (cache_lat c) 0) (orElse (cache_lng c) 0)
         <=? HINT_PROXIMITY_METERS) = true).
  { unfold sheetHint, hintBlock, selectedDistance, useDistanceTo, isNearby.
    destruct selected as [c|].
    - destruct (effectiveLocation mock geo) as [loc|]; cbn.
      + destruct (truthy (cache_hint c)) eqn:Ht; cbn;
          [destruct (cache_is_found c) eqn:Hf; cbn|].
        * split; [discriminate|]. intros (c' & l' & [= <-] & _ & _ & Hx & _).
          congruence.
        * destruct (_ <=? _) eqn:Hd.
          -- split; [|reflexivity]. intros _. exists c, loc. auto.
          -- split; [discriminate|].
             intros (c' & l' & [= <-] & [= <-] & _ & _ & Hx). congruence.
        * split; [discriminate|]. intros (c' & l' & [= <-] & _ & Hx & _).
          congruence.
      + destruct (truthy (cache_hint c) && negb (cache_is_found c));
          (split; [discriminate|]); intros (c' & l' & _ & Hx & _); discriminate.
    - cbn. split; [discriminate|]. intros (c' & l' & Hx & _). discriminate. }
  split; [exact Hiff|]. split.
  - intros -> Hl Hu. apply Hiff in Hu as (c & loc & _ & Hloc & _).
    unfold effectiveLocation in Hloc. rewrite Hl in Hloc. discriminate.
  - intros m geo' ->. reflexivity.
Qed.

End MoreFacts.

(** ** The dashboard's counters *)

(** X23.  The dashboard's hidden count (total minus found) is the number
    of active caches the game screen's status bar shows; it is never
    negative, and found and hidden add up to the total. *)
Theorem hidden_count_is_active_count caches :
  hiddenCount caches = Z.of_nat (List.length (activeCaches caches))
  /\ (0 <= hiddenCount caches)%Z
  /\ (foundCount caches + hiddenCount caches
      = Z.of_nat (List.length caches))%Z.
Proof.
  assert (E : (List.length caches
               = List.length (filter cache_is_found caches)
                 + List.length (activeCaches caches))%nat).
  { unfold activeCaches. induction caches as [|c l IH]; [reflexivity|].
    cbn. destruct (cache_is_found c); cbn; lia. }
  unfold hiddenCount, foundCount. lia.
Qed.

(** ** Live player tracking *)

Lemma TrackingInv_broadcast u t l w :
  TrackingInv w -> (lastBroadcastRef w + cooldown <= clock w)%Z -> pendingBroadcasts w = [] ->
  TrackingInv (broadcast u t l w).
Proof.
  intros [I1 I2 I3 I5 I6 I4] Hc Ht. unfold broadcast.
  destruct (channelUp w); cbn [negb]; [|now split].
  split; cbn.
  - split; [|exact I1]. rewrite I2 in Hc.
    destruct (tracked w); [exact I|exact Hc].
  - reflexivity.
  - lia.
  - intros p [<-|Hin]; [cbn; lia|now apply I5].
  - reflexivity.
  - rewrite Ht. intros t0 [].
Qed.

Lemma filter_pending_nil id w :
  TrackingInv w -> pendingBroadcastTimeoutRef w = Some id ->
  filter (fun t => negb (Pos.eqb (pb_id t) id)) (pendingBroadcasts w) = [].
Proof.
  intros I E. apply filter_nil_all. intros t Hin.
  destruct (tinv_pending w I t Hin) as (Hr & _). rewrite E in Hr.
  injection Hr as ->. now rewrite Pos.eqb_refl.
Qed.

Lemma runBroadcastCleanup_spec w :
  TrackingInv w ->
  TrackingInv (runBroadcastCleanup w) /\ pendingBroadcasts (runBroadcastCleanup w) = []
  /\ pendingBroadcastTimeoutRef (runBroadcastCleanup w) = None
  /\ tracked (runBroadcastCleanup w) = tracked w
  /\ lastBroadcastRef (runBroadcastCleanup w) = lastBroadcastRef w
  /\ clock (runBroadcastCleanup w) = clock w /\ channelUp (runBroadcastCleanup w) = channelUp w
  /\ nextBroadcastTimer (runBroadcastCleanup w) = nextBroadcastTimer w.
Proof.
  intros I. unfold runBroadcastCleanup, broadcastCleanup.
  assert (Hnone : hasCleanup w = false \/ pendingBroadcastTimeoutRef w = None
                  -> pendingBroadcasts w = []).
  { intros Hx. destruct (pendingBroadcasts w) as [|t l] eqn:Et; [reflexivity|].
    destruct (tinv_pending w I t) as (Hr & Hc & _); [rewrite Et; now left|].
    destruct Hx; congruence. }
  destruct (hasCleanup w) eqn:Hc.
  - destruct (pendingBroadcastTimeoutRef w) as [id|] eqn:E.
    + pose proof (filter_pending_nil id w I E) as Hf.
      split; [|cbn; rewrite Hf; repeat split].
      destruct I as [I1 I2 I3 I5 I6 I4].
      split; cbn; [exact I1|exact I2|exact I3|exact I5|reflexivity|].
      rewrite Hf. intros t [].
    + split; [exact I|]. split; [auto|]. repeat split. exact E.
  - split; [exact I|]. split; [auto|]. repeat split.
    exact (tinv_ref w I Hc).
Qed.

Lemma TrackingInv_frame w w' :
  TrackingInv w -> tracked w' = tracked w ->
  lastBroadcastRef w' = lastBroadcastRef w -> (clock w <= clock w')%Z ->
  pendingBroadcasts w' = pendingBroadcasts w ->
  pendingBroadcastTimeoutRef w' = pendingBroadcastTimeoutRef w ->
  (hasCleanup w' = hasCleanup w
   \/ (pendingBroadcasts w = [] /\ (hasCleanup w' = false ->
                         pendingBroadcastTimeoutRef w = None))) ->
  TrackingInv w'.
Proof.
  intros [I1 I2 I3 I5 I6 I4] Ht Hl Hn Hti Hp Hc.
  split; rewrite ?Ht, ?Hl, ?Hti, ?Hp; auto; try lia.
  - intros p Hin. specialize (I5 p Hin). lia.
  - destruct Hc as [->|[_ Hc]]; auto.
  - intros t Hin. destruct (I4 t Hin) as (? & ? & ?).
    destruct Hc as [Hc|[Hc _]]; [|rewrite Hc in Hin; destruct Hin].
    rewrite Hc. auto.
Qed.

Lemma TrackingInv_effect uid team loc w :
  TrackingInv w -> pendingBroadcasts w = [] -> pendingBroadcastTimeoutRef w = None ->
  TrackingInv (broadcastEffect uid team loc w).
Proof.
  intros I Ht Hp. unfold broadcastEffect.
  assert (If : forall b, TrackingInv (set_hasCleanup b w)).
  { intros b. apply (TrackingInv_frame w); cbn; auto; try lia. }
  destruct uid as [u|]; [|apply If]. destruct team as [t|]; [|apply If].
  destruct loc as [l|]; [|apply If].
  destruct (truthy (Some u) && truthy (Some t) && channelUp w); [|apply If].
  destruct (cooldown <=? clock w - lastBroadcastRef w)%Z eqn:Hc.
  - apply Z.leb_le in Hc.
    assert (Ib : TrackingInv (broadcast u t l w)) by (apply TrackingInv_broadcast; auto; lia).
    apply (TrackingInv_frame (broadcast u t l w));
      [exact Ib|reflexivity|reflexivity|cbn; lia|reflexivity|reflexivity|].
    right. unfold broadcast.
    destruct (channelUp w); cbn; split; auto; discriminate.
  - rewrite Hp. cbn [isSome].
    destruct I as [I1 I2 I3 I5 I6 I4].
    split; cbn [tracked lastBroadcastRef clock pendingBroadcasts hasCleanup
                pendingBroadcastTimeoutRef set_hasCleanup scheduleBroadcast]; auto.
    + discriminate.
    + rewrite Ht. intros t0 [<-|[]].
      cbn [pb_id pb_armedAt pb_delay]. repeat split. lia.
Qed.

Lemma TrackingInv_initial t0 : (0 <= t0)%Z -> TrackingInv (initialTracker t0).
Proof. intros Ht. split; cbn; auto; try lia; intros t []. Qed.

Lemma dueBroadcast_spec id w t :
  dueBroadcast id w = Some t ->
  In t (pendingBroadcasts w) /\ pb_id t = id
  /\ (pb_armedAt t + pb_delay t <= clock w)%Z.
Proof.
  unfold dueBroadcast. intros Hf. apply find_some in Hf as (Hin & Hb).
  apply andb_prop in Hb as [Hi Hz]. apply Pos.eqb_eq in Hi.
  apply Z.leb_le in Hz. auto.
Qed.

Lemma TrackingInv_step e w w' : TrackingInv w -> trackingStep e w = Some w' -> TrackingInv w'.
Proof.
  intros I. destruct e; cbn.
  - intros [= <-]. destruct (runBroadcastCleanup_spec w I) as (I1 & Ht & Hp & _).
    now apply TrackingInv_effect.
  - intros [= <-]. destruct (runBroadcastCleanup_spec w I) as (I1 & Ht & Hp & _).
    apply (TrackingInv_frame (runBroadcastCleanup w)); cbn; auto; try lia.
  - intros [= <-]. apply (TrackingInv_frame w); cbn; auto; try lia.
  - destruct (dueBroadcast id w) as [t|] eqn:Hd; [|discriminate]. intros [= <-].
    apply dueBroadcast_spec in Hd as (Hin & Hid & Hz).
    destruct (tinv_pending w I t Hin) as (Hr & Hc & Hdue).
    rewrite Hid in Hr.
    pose proof (filter_pending_nil id w I Hr) as Hf.
    apply TrackingInv_broadcast; cbn; auto; try lia.
    destruct I as [I1 I2 I3 I5 I6 I4]. split; cbn; auto.
    rewrite Hf. intros t0 [].
  - destruct (0 <=? dt)%Z eqn:Hd; [|discriminate]. intros [= <-].
    apply Z.leb_le in Hd. apply (TrackingInv_frame w); cbn; auto; try lia.
Qed.

Lemma trackingReachable_Inv w : trackingReachable w -> TrackingInv w.
Proof.
  induction 1 as [t0 Ht|e w w' _ IH Hs]; [now apply TrackingInv_initial|].
  exact (TrackingInv_step e w w' IH Hs).
Qed.

Lemma spaced_nth l :
  spaced l ->
  forall i p q, nth_error l i = Some p -> nth_error l (S i) = Some q ->
    (lastTick q + cooldown <= lastTick p)%Z.
Proof.
  induction l as [|a l IH]; intros Hs i p q Hp Hq; [destruct i; discriminate|].
  destruct Hs as [Hh Ht]. destruct i as [|i].
  - cbn in Hp, Hq. injection Hp as <-. destruct l as [|b l]; [discriminate|].
    cbn in Hq. injection Hq as <-. exact Hh.
  - cbn in Hp. exact (IH Ht i p q Hp Hq).
Qed.

(** X24.  Two consecutive broadcasts are never less than 15 s apart, and
    none is stamped in the future: however often the location changes, the
    player's position goes out at most once per cooldown. *)
Theorem broadcasts_spaced w :
  trackingReachable w ->
  (forall i p q,
     nth_error (tracked w) i = Some p ->
     nth_error (tracked w) (S i) = Some q ->
     (lastTick q + 15000 <= lastTick p)%Z)
  /\ (forall p, In p (tracked w) -> (lastTick p <= clock w)%Z).
Proof.
  intros R. pose proof (trackingReachable_Inv w R) as I. split.
  - apply spaced_nth, (tinv_spaced w I).
  - apply (tinv_past w I).
Qed.

Lemma quiet_trackingStep e w w' :
  pendingBroadcasts w = [] -> isRender e = false -> trackingStep e w = Some w' ->
  pendingBroadcasts w' = [] /\ tracked w' = tracked w.
Proof.
  intros Ht He. destruct e; try discriminate; cbn.
  - intros [= <-]. unfold runBroadcastCleanup, broadcastCleanup.
    destruct (hasCleanup w); cbn; [|auto].
    destruct (pendingBroadcastTimeoutRef w); cbn; rewrite ?Ht; auto.
  - intros [= <-]. cbn. auto.
  - unfold dueBroadcast. rewrite Ht. discriminate.
  - destruct (0 <=? dt)%Z; [|discriminate]. intros [= <-]. cbn. auto.
Qed.

Lemma quiet_trackingRun es w w' :
  pendingBroadcasts w = [] -> forallb (fun e => negb (isRender e)) es = true ->
  trackingRun es w = Some w' -> tracked w' = tracked w.
Proof.
  revert w. induction es as [|e es IH]; simpl; intros w Ht Hes.
  - now intros [= <-].
  - apply andb_prop in Hes as [He Hes]. apply negb_true_iff in He.
    destruct (trackingStep e w) as [w1|] eqn:E; [|discriminate]. intros Hrun.
    destruct (quiet_trackingStep e w w1 Ht He E) as (Ht1 & Hk1).
    rewrite <- Hk1. now apply IH.
Qed.

(** X25.  When the player signs out, the location goes away, the channel
    is gone or the screen unmounts, a broadcast that was waiting for the
    cooldown is cancelled, and nothing is broadcast until the effect runs
    again. *)
Theorem no_broadcast_once_stopped e es w w1 w2 :
  trackingReachable w ->
  (e = Unmount
   \/ exists uid team loc,
        e = Render uid team loc
        /\ (truthy uid = false \/ truthy team = false \/ loc = None
            \/ channelUp w = false)) ->
  trackingStep e w = Some w1 ->
  forallb (fun e => negb (isRender e)) es = true ->
  trackingRun es w1 = Some w2 ->
  pendingBroadcasts w1 = [] /\ tracked w2 = tracked w.
Proof.
  intros R He Hstep Hes Hrun. pose proof (trackingReachable_Inv w R) as I.
  destruct (runBroadcastCleanup_spec w I) as (_ & Ht & _ & Hk & _ & _ & Hch & _).
  assert (H1 : pendingBroadcasts w1 = [] /\ tracked w1 = tracked w).
  { destruct He as [->|(uid & team & loc & -> & Hx)]; cbn in Hstep;
      injection Hstep as <-; [cbn; auto|].
    unfold broadcastEffect. rewrite Hch.
    destruct uid as [u|]; [|cbn; auto]. destruct team as [t|]; [|cbn; auto].
    destruct loc as [l|]; [|cbn; auto].
    assert (Hg : truthy (Some u) && truthy (Some t) && channelUp w = false).
    { destruct Hx as [Hx|[Hx|[Hx|Hx]]]; try discriminate; rewrite Hx;
        rewrite ?andb_false_r; reflexivity. }
    rewrite Hg. cbn. auto. }
  destruct H1 as (Ht1 & Hk1). split; [exact Ht1|].
  rewrite <- Hk1. exact (quiet_trackingRun es w1 w2 Ht1 Hes Hrun).
Qed.

(** X26.  A location change inside the cooldown is deferred, not dropped:
    it is broadcast, with that location, when the cooldown ends. *)
Theorem deferred_broadcast u t l w :
  trackingReachable w -> u <> EmptyString -> t <> EmptyString ->
  channelUp w = true ->
  (clock w - lastBroadcastRef w < 15000)%Z ->
  exists w',
    trackingRun [Render (Some u) (Some t) (Some l);
         ClockTick (15000 - (clock w - lastBroadcastRef w));
         BroadcastTimerFired (nextBroadcastTimer w)] w = Some w'
    /\ tracked w'
       = mkPresence u t (loc_latitude l) (loc_longitude l)
           (lastBroadcastRef w + 15000) :: tracked w.
Proof.
  intros R Hu Ht Hch Hlt. pose proof (trackingReachable_Inv w R) as I.
  destruct (runBroadcastCleanup_spec w I) as (_ & Hti & Hp & Hk & Hl & Hn & Hc & Hnt).
  assert (Htu : truthy (Some u) = true).
  { cbn. destruct u; [congruence|reflexivity]. }
  assert (Htt : truthy (Some t) = true).
  { cbn. destruct t; [congruence|reflexivity]. }
  assert (Hcd : (cooldown <=? clock w - lastBroadcastRef w)%Z = false)
    by (apply Z.leb_gt; unfold cooldown; lia).
  assert (Hdt : (0 <=? 15000 - (clock w - lastBroadcastRef w))%Z = true)
    by (apply Z.leb_le; lia).
  assert (Hdue : (clock w + (cooldown - (clock w - lastBroadcastRef w))
                  <=? clock w + (15000 - (clock w - lastBroadcastRef w)))%Z = true)
    by (apply Z.leb_le; unfold cooldown; lia).
  assert (E1 : trackingStep (Render (Some u) (Some t) (Some l)) w
               = Some (set_hasCleanup true
                         (scheduleBroadcast (cooldown - (clock w - lastBroadcastRef w))
                            u t l (runBroadcastCleanup w)))).
  { unfold trackingStep, broadcastEffect. rewrite Hc, Hch, Hn, Hl, Hp, Htu, Htt, Hcd.
    reflexivity. }
  set (w1 := set_hasCleanup true _) in E1.
  assert (E2 : trackingStep (ClockTick (15000 - (clock w - lastBroadcastRef w))) w1
               = Some (set_clock (clock w + (15000 - (clock w - lastBroadcastRef w)))
                         w1)).
  { unfold trackingStep. rewrite Hdt. unfold w1 at 1. unfold set_hasCleanup, scheduleBroadcast.
    cbn [clock]. now rewrite Hn. }
  set (w2 := set_clock _ w1) in E2.
  assert (E3 : dueBroadcast (nextBroadcastTimer w) w2
               = Some (mkPendingBroadcast (nextBroadcastTimer w) (clock w)
                         (cooldown - (clock w - lastBroadcastRef w)) u t l)).
  { unfold dueBroadcast, w2, w1, set_clock, set_hasCleanup, scheduleBroadcast.
    cbn [pendingBroadcasts clock]. rewrite Hti, Hnt, Hn.
    cbn [find pb_id pb_armedAt pb_delay].
    now rewrite Pos.eqb_refl, Hdue. }
  cbn [trackingRun]. rewrite E1, E2. cbn [trackingStep]. rewrite E3.
  eexists. split; [reflexivity|].
  unfold broadcast, cancelBroadcast, w2, w1, set_clock, set_hasCleanup, scheduleBroadcast.
  cbn [channelUp negb pb_userId pb_teamName pb_location tracked clock].
  rewrite Hc, Hch, Hk. cbn [negb tracked]. f_equal. f_equal. lia.
Qed.



(** ** More sample runs, and the theorems above at work on them *)

Lemma trackingReachable_play es w :
  trackingReachable w -> trackingReachable (trackingPlay es w).
Proof.
  revert w. induction es as [|e es IH]; simpl; intros w R; [exact R|].
  apply IH. destruct (trackingStep e w) as [w1|] eqn:E; [|exact R].
  exact (tracking_step e w w1 R E).
Qed.

Lemma reachable_nudged : reachable nudged.
Proof. apply reachable_play, reachable_withBaseline. Qed.

Lemma reachable_afterDenial : reachable afterDenial.
Proof. apply reachable_play, reachable_withBaseline. Qed.

Lemma reachable_silent : reachable silent.
Proof. apply reachable_play, reachable_withBaseline. Qed.

Lemma reachable_mountedWithPermissions : reachable mountedWithPermissions.
Proof. apply reachable_mount. Qed.

Lemma reachable_mountedUnsupported : reachable mountedUnsupported.
Proof. apply reachable_mount. Qed.

Lemma reachable_probeDenied : reachable probeDenied.
Proof. apply reachable_play, reachable_mountedWithPermissions. Qed.

Lemma reachable_probeGranted : reachable probeGranted.
Proof. apply reachable_play, reachable_mountedWithPermissions. Qed.

Lemma trackingReachable_trackerUp : trackingReachable trackerUp.
Proof. apply trackingReachable_play, tracking_init. lia. Qed.

Lemma trackingReachable_trackerWaiting : trackingReachable trackerWaiting.
Proof. apply trackingReachable_play, trackingReachable_trackerUp. Qed.

Lemma trackingReachable_twoBroadcasts : trackingReachable twoBroadcasts.
Proof. apply trackingReachable_play, tracking_init. lia. Qed.

Lemma one_subscription_witness :
  watches withBaseline
  = match watchIdRef withBaseline with Some id => [id] | None => [] end.
Proof.
  exact (proj1 (one_subscription withBaseline reachable_withBaseline)).
Defined.

Lemma one_pending_timeout_witness :
  (List.length (timers withBaseline) <= 1)%nat.
Proof.
  exact (proj1 (one_pending_timeout withBaseline reachable_withBaseline)).
Defined.

Lemma exposed_is_published_witness : exposesPublished withBaseline.
Proof.
  exact (proj1 (exposed_is_published withBaseline reachable_withBaseline)).
Defined.

Lemma published_tracks_smoothed_witness :
  exists s,
    smoothedRef nudged = Some s
    /\ (mkGeoPosition 10 10 10 = s
        \/ (MIN_MOVEMENT_THRESHOLD
            <=? distanceFromPublished (mkGeoPosition 10 10 10) s) = false).
Proof.
  assert (Hp : lastPushedRef nudged = Some (mkGeoPosition 10 10 10))
    by (vm_compute; reflexivity).
  destruct (smoothedRef nudged) as [s|] eqn:Hs.
  - exists s. split; [reflexivity|].
    exact (published_tracks_smoothed nudged _ s reachable_nudged Hp Hs).
  - vm_compute in Hs. discriminate Hs.
Defined.

Lemma coordinates_persist_witness :
  sameCoordinates (state withBaseline)
    (state (play [WatchError 1 timedOut] withBaseline)).
Proof.
  assert (Hs : step (WatchError 1 timedOut) withBaseline
               = Some (play [WatchError 1 timedOut] withBaseline))
    by (vm_compute; reflexivity).
  apply (coordinates_persist _ _ _ reachable_withBaseline Hs).
  reflexivity.
Defined.

Lemma reading_clears_flags_witness :
  flagsClear (state (handlePosition reading20 signalLost)).
Proof.
  assert (Ha : accuracyRejects reading20 signalLost = false)
    by (vm_compute; reflexivity).
  exact (proj1 (reading_clears_flags reading20 signalLost
                  reachable_signalLost Ha)).
Defined.

Lemma snap_freezes_position_witness :
  smoothedRef (feed [readingStill; readingCrawl; readingStill] twiceStill)
  = smoothedRef twiceStill.
Proof.
  assert (Hb : smoothedRef twiceStill <> None) by (vm_compute; discriminate).
  assert (Hc : (SNAP_AFTER_STABLE_COUNT <= S (stableCountRef twiceStill))%nat)
    by (vm_compute; lia).
  assert (Hs : forallb reportsStill [readingStill; readingCrawl; readingStill]
               = true) by (vm_compute; reflexivity).
  exact (proj1 (snap_freezes_position _ twiceStill reachable_twiceStill
                  Hb Hc Hs)).
Defined.

Lemma watchdog_needs_silence_witness :
  (now mounted + 30000 <= now silent)%Z.
Proof.
  assert (Ha : accuracyRejects reading10 mounted = false)
    by (vm_compute; reflexivity).
  assert (Hr : run [Tick 30000] (handlePosition reading10 mounted)
               = Some silent) by (vm_compute; reflexivity).
  assert (Hf : step (TimerFired 1) silent = Some signalLost)
    by (vm_compute; reflexivity).
  exact (watchdog_needs_silence reading10 mounted [Tick 30000] silent 1
           signalLost reachable_mounted Ha Hr Hf).
Defined.

Lemma permission_denied_error_witness :
  permissionState (state (handleError accessDenied withBaseline)) = denied.
Proof.
  assert (Hc : code accessDenied = PERMISSION_DENIED) by reflexivity.
  exact (proj1 (permission_denied_error accessDenied withBaseline
                  reachable_withBaseline Hc)).
Defined.

Lemma denial_then_watchdog_witness :
  exists w',
    run [WatchError 1 accessDenied; Tick 30000; TimerFired 1] withBaseline
    = Some w'
    /\ permissionState (state w') = denied
    /\ error (state w') = Some SIGNAL_LOST
    /\ stale (state w') = true
    /\ watchIdRef w' = None.
Proof.
  assert (Hc : code accessDenied = PERMISSION_DENIED) by reflexivity.
  assert (Hw : watching 1 withBaseline = true) by (vm_compute; reflexivity).
  assert (Ht : In (mkTimer 1 0 30000) (timers withBaseline))
    by (vm_compute; left; reflexivity).
  assert (H0 : (0 <= 30000)%Z) by lia.
  assert (Hd : (timer_armedAt (mkTimer 1 0 30000) + 30000
                <= now withBaseline + 30000)%Z) by (vm_compute; discriminate).
  exact (denial_then_watchdog accessDenied 1 (mkTimer 1 0 30000) 30000
           withBaseline reachable_withBaseline Hc Hw Ht H0 Hd).
Defined.

Lemma permission_probe_witness :
  permissionState (state probeDenied) = denied /\ watches probeDenied = [].
Proof.
  assert (Hc : cancelled mountedWithPermissions = false)
    by (vm_compute; reflexivity).
  assert (Hs : step (QueryResolved status_denied) mountedWithPermissions
               = Some probeDenied) by (vm_compute; reflexivity).
  destruct (permission_probe status_denied mountedWithPermissions probeDenied
              reachable_mountedWithPermissions Hc Hs)
    as (_ & _ & _ & _ & Hp & _ & _ & _ & Hw & _).
  split; [exact Hp|exact Hw].
Defined.

Lemma permission_revoked_witness :
  error (state (play [PermissionChange status_denied] probeGranted))
  = Some ACCESS_REVOKED.
Proof.
  assert (Hs : step (PermissionChange status_denied) probeGranted
               = Some (play [PermissionChange status_denied] probeGranted))
    by (vm_compute; reflexivity).
  destruct (permission_revoked probeGranted _ reachable_probeGranted Hs)
    as (_ & He & _).
  exact He.
Defined.

Lemma denied_not_watching_step_witness : deniedNotWatching afterDenial.
Proof.
  assert (D : deniedNotWatching withBaseline)
    by (intros E; vm_compute in E; discriminate E).
  assert (Hn : WatchError 1 accessDenied <> PermissionChange status_granted)
    by discriminate.
  assert (Hs : step (WatchError 1 accessDenied) withBaseline
               = Some afterDenial) by (vm_compute; reflexivity).
  exact (denied_not_watching_step _ withBaseline afterDenial
           reachable_withBaseline D Hn Hs).
Defined.

Lemma stays_unsubscribed_witness :
  watchIdRef
    (play [Recalibrate; OneShotSuccess reading20; Tick 5000] afterDenial)
  = None.
Proof.
  assert (Hw : watchIdRef afterDenial = None) by (vm_compute; reflexivity).
  assert (Hq : queryPending afterDenial = false)
    by (vm_compute; reflexivity).
  assert (He : forallb (fun e => negb (isRegrant e))
                 [Recalibrate; OneShotSuccess reading20; Tick 5000] = true)
    by reflexivity.
  assert (Hr : run [Recalibrate; OneShotSuccess reading20; Tick 5000]
                 afterDenial
               = Some (play [Recalibrate; OneShotSuccess reading20; Tick 5000]
                         afterDenial)) by (vm_compute; reflexivity).
  exact (proj1 (stays_unsubscribed _ afterDenial _ reachable_afterDenial
                  Hw Hq He Hr)).
Defined.

Lemma denied_without_listener_is_final_witness :
  watchIdRef
    (play [Recalibrate; OneShotSuccess reading10; Tick 5000] probeDenied)
  = None.
Proof.
  assert (Hw : watchIdRef probeDenied = None) by (vm_compute; reflexivity).
  assert (Hq : queryPending probeDenied = false)
    by (vm_compute; reflexivity).
  assert (Hl : listening probeDenied = false) by (vm_compute; reflexivity).
  assert (Hr : run [Recalibrate; OneShotSuccess reading10; Tick 5000]
                 probeDenied
               = Some (play [Recalibrate; OneShotSuccess reading10; Tick 5000]
                         probeDenied)) by (vm_compute; reflexivity).
  exact (proj1 (denied_without_listener_is_final _ probeDenied _
                  reachable_probeDenied Hw Hq Hl Hr)).
Defined.

Lemma unsupported_is_terminal_witness :
  state (play [Recalibrate; Tick 1000; Cleanup] mountedUnsupported)
  = unsupportedState.
Proof.
  assert (Hg : geolocation mountedUnsupported = false)
    by (vm_compute; reflexivity).
  assert (Hr : run [Recalibrate; Tick 1000; Cleanup] mountedUnsupported
               = Some (play [Recalibrate; Tick 1000; Cleanup]
                         mountedUnsupported)) by (vm_compute; reflexivity).
  destruct (unsupported_is_terminal mountedUnsupported
              reachable_mountedUnsupported) as [Hdead _].
  destruct (Hdead Hg) as (_ & _ & _ & _ & Hall).
  exact (Hall _ _ Hr).
Defined.

Lemma cleanup_cancels_witness :
  watches (cleanup withBaseline) = [] /\ timers (cleanup withBaseline) = [].
Proof.
  destruct (cleanup_cancels withBaseline reachable_withBaseline)
    as (_ & _ & Hw & Ht & _).
  split; [exact Hw|exact Ht].
Defined.

Lemma cleanup_is_final_witness :
  watchIdRef
    (play [PermissionChange status_granted; Recalibrate] (cleanup probeGranted))
  = None.
Proof.
  assert (Hg : geolocation probeGranted = true) by (vm_compute; reflexivity).
  assert (Hr : run [PermissionChange status_granted; Recalibrate]
                 (cleanup probeGranted)
               = Some (play [PermissionChange status_granted; Recalibrate]
                         (cleanup probeGranted))) by (vm_compute; reflexivity).
  destruct (cleanup_is_final _ probeGranted _ reachable_probeGranted Hg Hr)
    as (_ & Hw & _).
  exact Hw.
Defined.

Lemma recalibrate_failure_witness :
  exists w',
    run [Recalibrate; OneShotError timedOut] withBaseline = Some w'
    /\ loading (state w') = false
    /\ sameCoordinates (state withBaseline) (state w').
Proof.
  assert (Hg : geolocation withBaseline = true) by (vm_compute; reflexivity).
  destruct (recalibrate_failure timedOut withBaseline Hg)
    as (w' & Hr & _ & Hl & _ & Hc & _).
  exists w'. split; [exact Hr|split; [exact Hl|exact Hc]].
Defined.

Lemma recalibrate_coarse_fix_keeps_loading_witness :
  exists w',
    run [Recalibrate; OneShotSuccess readingCoarse] withBaseline = Some w'
    /\ loading (state w') = true.
Proof.
  assert (Hg : geolocation withBaseline = true) by (vm_compute; reflexivity).
  assert (Hb : smoothedRef withBaseline <> None)
    by (vm_compute; discriminate).
  assert (Ha : (MAX_ACCEPTABLE_ACCURACY <? coords_accuracy readingCoarse)
               = true) by (vm_compute; reflexivity).
  destruct (recalibrate_coarse_fix_keeps_loading readingCoarse withBaseline
              Hg Hb Ha) as (w' & Hr & Hl & _).
  exists w'. split; [exact Hr|exact Hl].
Defined.

Lemma recalibration_keeps_subscription_witness :
  watchIdRef (play [Recalibrate] withBaseline) = watchIdRef withBaseline.
Proof.
  assert (He : Recalibrate = Recalibrate
               \/ (exists pos, Recalibrate = OneShotSuccess pos)
               \/ (exists err, Recalibrate = OneShotError err))
    by (left; reflexivity).
  assert (Hs : step Recalibrate withBaseline
               = Some (play [Recalibrate] withBaseline))
    by (vm_compute; reflexivity).
  exact (proj1 (recalibration_keeps_subscription _ withBaseline _ He Hs)).
Defined.

Lemma broadcasts_spaced_witness :
  (lastTick (mkPresence "u1" "Owls" 10 10 20000) + 15000
   <= lastTick (mkPresence "u1" "Owls" 10.001 10 35000))%Z.
Proof.
  apply (proj1 (broadcasts_spaced twoBroadcasts
                  trackingReachable_twoBroadcasts) O);
    vm_compute; reflexivity.
Defined.

Lemma no_broadcast_once_stopped_witness :
  pendingBroadcasts (trackingPlay [Unmount] trackerWaiting) = []
  /\ tracked (trackingPlay [Unmount; ClockTick 20000; SetChannel false]
                trackerWaiting)
     = tracked trackerWaiting.
Proof.
  assert (He : Unmount = Unmount
               \/ exists uid team loc,
                    Unmount = Render uid team loc
                    /\ (truthy uid = false \/ truthy team = false
                        \/ loc = None \/ channelUp trackerWaiting = false))
    by (left; reflexivity).
  assert (H1 : trackingStep Unmount trackerWaiting
               = Some (trackingPlay [Unmount] trackerWaiting))
    by (vm_compute; reflexivity).
  assert (Hq : forallb (fun e => negb (isRender e))
                 [ClockTick 20000; SetChannel false] = true) by reflexivity.
  assert (H2 : trackingRun [ClockTick 20000; SetChannel false]
                 (trackingPlay [Unmount] trackerWaiting)
               = Some (trackingPlay
                         [Unmount; ClockTick 20000; SetChannel false]
                         trackerWaiting)) by (vm_compute; reflexivity).
  exact (no_broadcast_once_stopped Unmount _ trackerWaiting _ _
           trackingReachable_trackerWaiting He H1 Hq H2).
Defined.

Lemma deferred_broadcast_witness :
  exists w',
    trackingRun [owlsAt 10 10; ClockTick 10000; BroadcastTimerFired 1]
      trackerUp = Some w'
    /\ tracked w' = [mkPresence "u1" "Owls" 10 10 15000].
Proof.
  assert (Hu : "u1"%string <> EmptyString) by discriminate.
  assert (Ht : "Owls"%string <> EmptyString) by discriminate.
  assert (Hc : channelUp trackerUp = true) by (vm_compute; reflexivity).
  assert (Hl : (clock trackerUp - lastBroadcastRef trackerUp < 15000)%Z)
    by (vm_compute; reflexivity).
  exact (deferred_broadcast "u1" "Owls" (mkLocation 10 10) trackerUp
           trackingReachable_trackerUp Hu Ht Hc Hl).
Defined.
